(** * Serial port monitor (scripts/monitor.py): a shallow embedding

    The monitor opens a serial port, polls it, decodes every line it
    reads, echoes the non-empty ones to stdout and, when [--log] is
    given, to a log file.  The embedding has three layers:

    - the text layer: [bytes.decode('utf-8', errors=...)] and
      [str.rstrip()], as the Python runtime computes them;
    - the effect layer: a state-and-exception monad over a [world]
      (filesystem, standard streams, the two handles, a trace) in which
      every call into the outside world may raise what the environment
      says it raises;
    - [main] itself: the [try] body, its three handlers and the
      [finally] block. *)

From Stdlib Require Import Strings.Byte NArith.
From stdpp Require Import base option list strings gmap.

Local Open Scope N_scope.

(** ** Text *)

(** A Python [bytes] object and a Python [str] (a sequence of code points). *)
Notation bytes := (list byte).
Notation text := (list N).

Definition LF : N := 10.

(** *** UTF-8 decoding

    [bytes.decode('utf-8', errors=...)] as CPython computes it.  One
    round of the decoder looks at the bytes left and either yields a code
    point from a sequence of [n] bytes ([StepChar]), or reports an error
    range of [n] bytes -- an invalid start byte, or a start byte together
    with the continuation bytes that were still acceptable
    ([StepInvalid]) --, or finds the input cut short inside a sequence
    that was valid so far ([StepTruncated], "unexpected end of data": the
    error range is all that is left). *)
Inductive utf8_step :=
| StepEnd
| StepChar (cp : N) (n : nat)
| StepInvalid (n : nat)
| StepTruncated.

Definition is_continuation_byte (ch : N) : bool := (0x80 <=? ch) && (ch <? 0xC0).

Definition utf8_decode_step (s : bytes) : utf8_step :=
  match s with
  | [] => StepEnd
  | b1 :: s1 =>
    let ch := Byte.to_N b1 in
    if ch <? 0x80 then StepChar ch 1
    else if ch <? 0xE0 then
      (* C2 80 .. DF BF: 0080-07FF *)
      if ch <? 0xC2 then StepInvalid 1
      else match s1 with
           | [] => StepTruncated
           | b2 :: _ =>
             let ch2 := Byte.to_N b2 in
             if negb (is_continuation_byte ch2) then StepInvalid 1
             else StepChar (N.shiftl ch 6 + ch2 - (N.shiftl 0xC0 6 + 0x80)) 2
           end
    else if ch <? 0xF0 then
      (* E0 A0 80 .. EF BF BF: 0800-FFFF, surrogates excluded *)
      match s1 with
      | [] => StepTruncated
      | b2 :: s2 =>
        let ch2 := Byte.to_N b2 in
        if negb (is_continuation_byte ch2)
           || (if ch2 <? 0xA0 then ch =? 0xE0 else ch =? 0xED)
        then StepInvalid 1
        else match s2 with
             | [] => StepTruncated
             | b3 :: _ =>
               let ch3 := Byte.to_N b3 in
               if negb (is_continuation_byte ch3) then StepInvalid 2
               else StepChar (N.shiftl ch 12 + N.shiftl ch2 6 + ch3
                              - (N.shiftl 0xE0 12 + N.shiftl 0x80 6 + 0x80)) 3
             end
      end
    else if ch <? 0xF5 then
      (* F0 90 80 80 .. F4 8F BF BF: 10000-10FFFF *)
      match s1 with
      | [] => StepTruncated
      | b2 :: s2 =>
        let ch2 := Byte.to_N b2 in
        if negb (is_continuation_byte ch2)
           || (if ch2 <? 0x90 then ch =? 0xF0 else ch =? 0xF4)
        then StepInvalid 1
        else match s2 with
             | [] => StepTruncated
             | b3 :: s3 =>
               let ch3 := Byte.to_N b3 in
               if negb (is_continuation_byte ch3) then StepInvalid 2
               else match s3 with
                    | [] => StepTruncated
                    | b4 :: _ =>
                      let ch4 := Byte.to_N b4 in
                      if negb (is_continuation_byte ch4) then StepInvalid 3
                      else StepChar (N.shiftl ch 18 + N.shiftl ch2 12
                                     + N.shiftl ch3 6 + ch4
                                     - (N.shiftl 0xF0 18 + N.shiftl 0x80 12
                                        + N.shiftl 0x80 6 + 0x80)) 4
                    end
             end
      end
    else StepInvalid 1
  end.

(** The [errors] argument of [bytes.decode]. *)
Inductive error_handler := Strict | Ignore | Replace.

Inductive decoded :=
| Decoded (t : text)
| UnicodeDecodeError.

Definition decoded_cons (c : N) (d : decoded) : decoded :=
  match d with
  | Decoded t => Decoded (c :: t)
  | UnicodeDecodeError => UnicodeDecodeError
  end.

Definition REPLACEMENT_CHARACTER : N := 0xFFFD.

(** What the handler does with an error range before decoding resumes
    behind it. *)
Definition on_error (errors : error_handler) (resume : decoded) : decoded :=
  match errors with
  | Strict => UnicodeDecodeError
  | Ignore => resume
  | Replace => decoded_cons REPLACEMENT_CHARACTER resume
  end.

(** The decoder's loop.  [skip] counts the bytes of the current sequence
    (or error range) that are still to be stepped over; a new round
    starts where it reaches zero. *)
Fixpoint decode_from (errors : error_handler) (skip : nat) (s : bytes) : decoded :=
  match s with
  | [] => Decoded []
  | _ :: rest =>
    match skip with
    | S k => decode_from errors k rest
    | O =>
      match utf8_decode_step s with
      | StepEnd => Decoded []
      | StepChar cp n => decoded_cons cp (decode_from errors (Nat.pred n) rest)
      | StepInvalid n => on_error errors (decode_from errors (Nat.pred n) rest)
      | StepTruncated => on_error errors (Decoded [])
      end
    end
  end.

(** [s.decode('utf-8', errors=...)] *)
Definition decode (errors : error_handler) (s : bytes) : decoded :=
  decode_from errors 0 s.

(** *** Stripping *)

(** The code points [str.isspace] accepts. *)
Definition isspace (c : N) : bool :=
  ((0x09 <=? c) && (c <=? 0x0D)) || ((0x1C <=? c) && (c <=? 0x20))
  || (c =? 0x85) || (c =? 0xA0) || (c =? 0x1680)
  || ((0x2000 <=? c) && (c <=? 0x200A))
  || (c =? 0x2028) || (c =? 0x2029) || (c =? 0x202F) || (c =? 0x205F)
  || (c =? 0x3000).

Fixpoint lstrip (s : text) : text :=
  match s with
  | [] => []
  | c :: s' => if isspace c then lstrip s' else s
  end.

(** [s.rstrip()]: the longest prefix that does not end in whitespace. *)
Definition rstrip (s : text) : text := reverse (lstrip (reverse s)).

(** [line = raw.decode('utf-8', errors='ignore').rstrip()] *)
Definition decode_line (raw : bytes) : decoded :=
  match decode Ignore raw with
  | Decoded t => Decoded (rstrip t)
  | UnicodeDecodeError => UnicodeDecodeError
  end.

Definition decoded_text (d : decoded) : text :=
  match d with
  | Decoded t => t
  | UnicodeDecodeError => []
  end.

(** The line a chunk of received bytes stands for. *)
Definition received (raw : bytes) : text := decoded_text (decode_line raw).

(** Truth value of a [str]: the empty one is false. *)
Definition nonempty (t : text) : bool :=
  match t with
  | [] => false
  | _ :: _ => true
  end.

(** ** Exceptions and outcomes *)

(** The exception classes [main] tells apart.  [Exception msg] stands for
    an instance of any subclass of [Exception] other than
    [FileNotFoundError] (a [SerialException], an [OSError], ...). *)
Inductive exn :=
| KeyboardInterrupt
| SystemExit (code : Z)
| FileNotFoundError (msg : string)
| Exception (msg : string).

(** How a piece of the program ends.  [main] loops in [while True] until
    something raises, so a finite script of what the outside world
    answers can run out while the loop is still polling: [Polling]. *)
Inductive outcome (A : Type) :=
| Returns (a : A)
| Raises (e : exn)
| Polling.
Arguments Returns {A} a.
Arguments Raises {A} e.
Arguments Polling {A}.

(** ** The world *)

(** Lines printed to [sys.stderr]. *)
Inductive message :=
| MsgConnected (port : string) (baud : Z)
| MsgRule
| MsgLogging (path : string)
| MsgStoppedRule
| MsgStopped
| MsgPortNotFound (port : string)
| MsgCheckConnection
| MsgError (e : exn).

(** Calls into the outside world, in the order they are made. *)
Inductive event :=
| EvSerialOpen (port : string) (baud : Z)
| EvLogOpen (path : string)
| EvInWaiting
| EvReadline
| EvStdoutWrite (t : text)
| EvStdoutFlush
| EvLogWrite (t : text)
| EvLogFlush
| EvLogClose
| EvSerialClose.

(** A [serial.Serial] object. *)
Record Serial := { s_port : string; s_baud : Z; is_open : bool }.

(** A text file object opened for writing: what has been written but not
    yet flushed sits in [f_pending]; flushed text is in the filesystem. *)
Record file := { f_path : string; f_pending : text; f_closed : bool }.

Record world := {
  fs : gmap string text;      (* files on disk, by the path they were opened under *)
  stdout : text;              (* what has reached standard output *)
  stdout_pending : text;      (* written to sys.stdout, not yet flushed *)
  stderr : list message;
  ser : option Serial;        (* the local [ser]; [None] while unbound *)
  log_file : option file;     (* the local [log_file]; [None] is Python's None *)
  trace : list event }.

Definition set_fs (m : gmap string text) (w : world) : world :=
  {| fs := m; stdout := stdout w; stdout_pending := stdout_pending w;
     stderr := stderr w; ser := ser w; log_file := log_file w; trace := trace w |}.

Definition set_stdout (out pending : text) (w : world) : world :=
  {| fs := fs w; stdout := out; stdout_pending := pending;
     stderr := stderr w; ser := ser w; log_file := log_file w; trace := trace w |}.

Definition set_stderr (l : list message) (w : world) : world :=
  {| fs := fs w; stdout := stdout w; stdout_pending := stdout_pending w;
     stderr := l; ser := ser w; log_file := log_file w; trace := trace w |}.

Definition set_ser (s : option Serial) (w : world) : world :=
  {| fs := fs w; stdout := stdout w; stdout_pending := stdout_pending w;
     stderr := stderr w; ser := s; log_file := log_file w; trace := trace w |}.

Definition set_log_file (f : option file) (w : world) : world :=
  {| fs := fs w; stdout := stdout w; stdout_pending := stdout_pending w;
     stderr := stderr w; ser := ser w; log_file := f; trace := trace w |}.

Definition set_trace (t : list event) (w : world) : world :=
  {| fs := fs w; stdout := stdout w; stdout_pending := stdout_pending w;
     stderr := stderr w; ser := ser w; log_file := log_file w; trace := t |}.

(** The world [main] starts in: nothing printed, no local bound. *)
Definition initial (fs0 : gmap string text) : world :=
  {| fs := fs0; stdout := []; stdout_pending := []; stderr := [];
     ser := None; log_file := None; trace := [] |}.

(** ** The environment *)

(** The calls of one loop iteration that can raise. *)
Inductive op :=
| OpInWaiting | OpReadline | OpPrint | OpStdoutFlush | OpLogWrite | OpLogFlush.

Global Instance op_eq_dec : EqDecision op.
Proof. solve_decision. Defined.

(** What the outside world answers during one iteration of [while True]:
    how many bytes the port reports waiting, what [readline] hands over,
    and, when the iteration is to raise, at which call and what (an
    iteration ends at its first exception, so one is enough). *)
Record tick := {
  in_waiting : N;
  incoming : bytes;
  fault : option (op * exn) }.

Record env := {
  serial_fault : option exn;         (* [serial.Serial(...)] raising *)
  log_open_fault : option exn;       (* [open(args.log, 'w')] raising *)
  script : list tick;                (* the iterations of the loop *)
  log_close_fault : option string;   (* [log_file.close()] failing (OSError) *)
  ser_close_fault : option string }. (* [ser.close()] failing *)

(** The parsed command line. *)
Record args := { port : string; baud : Z; log : option string }.

(** ** The monad *)

Definition M (A : Type) : Type := world → world * outcome A.

Global Instance M_ret : MRet M := λ A a w, (w, Returns a).

Global Instance M_bind : MBind M := λ A B k m w,
  match m w with
  | (w', Returns a) => k a w'
  | (w', Raises e) => (w', Raises e)
  | (w', Polling) => (w', Polling)
  end.

Definition raise {A} (e : exn) : M A := λ w, (w, Raises e).

Definition polling {A} : M A := λ w, (w, Polling).

(** Reading a component of the world, and changing the world. *)
Definition gets {A} (proj : world → A) : M A := λ w, (w, Returns (proj w)).

Definition modify (f : world → world) : M unit := λ w, (f w, Returns tt).

Definition emit (ev : event) : M unit :=
  modify (λ w, set_trace (trace w ++ [ev]) w).

(** [try: body except ...: handler] -- the handler sees every exception
    and re-raises those no clause matches. *)
Definition try_except {A} (body : M A) (handler : exn → M A) : M A := λ w,
  match body w with
  | (w', Raises e) => handler e w'
  | r => r
  end.

(** [try: body finally: cleanup] -- an exception out of the cleanup
    replaces whatever the body ended with. *)
Definition try_finally {A} (body : M A) (cleanup : M unit) : M A := λ w,
  match body w with
  | (w', Polling) => (w', Polling)
  | (w', r) =>
    match cleanup w' with
    | (w'', Returns _) => (w'', r)
    | (w'', Raises e) => (w'', Raises e)
    | (w'', Polling) => (w'', Polling)
    end
  end.

(** ** Primitive operations *)

Definition may_raise (f : option exn) : M unit :=
  match f with
  | Some e => raise e
  | None => mret tt
  end.

(** Does this iteration raise at call [o]? *)
Definition fault_at (o : op) (t : tick) : option exn :=
  match fault t with
  | Some (o', e) => if decide (o = o') then Some e else None
  | None => None
  end.

(** [print(..., file=sys.stderr)] *)
Definition print_stderr (m : message) : M unit :=
  modify (λ w, set_stderr (stderr w ++ [m]) w).

(** [sys.exit(code)] *)
Definition sys_exit {A} (code : Z) : M A := raise (SystemExit code).

(** [ser = serial.Serial(port, baud, timeout=1)] *)
Definition serial_Serial (e : env) (p : string) (b : Z) : M unit :=
  emit (EvSerialOpen p b);;
  may_raise (serial_fault e);;
  modify (set_ser (Some {| s_port := p; s_baud := b; is_open := true |})).

(** [log_file = open(path, 'w')]: the file is created or truncated. *)
Definition open_w (e : env) (path : string) : M unit :=
  emit (EvLogOpen path);;
  may_raise (log_open_fault e);;
  modify (λ w, set_log_file (Some {| f_path := path; f_pending := []; f_closed := false |})
                 (set_fs (<[path := []]> (fs w)) w)).

(** [ser.in_waiting] *)
Definition ser_in_waiting (t : tick) : M N :=
  emit EvInWaiting;;
  may_raise (fault_at OpInWaiting t);;
  mret (in_waiting t).

(** [ser.readline()] *)
Definition ser_readline (t : tick) : M bytes :=
  emit EvReadline;;
  may_raise (fault_at OpReadline t);;
  mret (incoming t).

(** [raw.decode('utf-8', errors='ignore').rstrip()] as a step of the
    program: a decoding error would surface as an exception. *)
Definition decode_and_strip (raw : bytes) : M text :=
  match decode_line raw with
  | Decoded line => mret line
  | UnicodeDecodeError => raise (Exception "UnicodeDecodeError")
  end.

(** [print(line)] *)
Definition print (t : tick) (line : text) : M unit :=
  emit (EvStdoutWrite (line ++ [LF]));;
  may_raise (fault_at OpPrint t);;
  modify (λ w, set_stdout (stdout w) (stdout_pending w ++ line ++ [LF]) w).

(** [sys.stdout.flush()] *)
Definition stdout_flush (t : tick) : M unit :=
  emit EvStdoutFlush;;
  may_raise (fault_at OpStdoutFlush t);;
  modify (λ w, set_stdout (stdout w ++ stdout_pending w) [] w).

(** Flushing a file object appends what is pending to the file on disk.
    This is a flush that succeeds.  A call that raises is modelled as
    having had no effect, which settles neither how much of the pending
    text a failing flush got out nor what a failing write left in the
    buffer: the properties below speak of the disk only after a
    [close] that succeeded, and otherwise of what was handed to the file
    object ([log_text]). *)
Definition flush_file (f : file) (w : world) : world :=
  set_log_file (Some {| f_path := f_path f; f_pending := []; f_closed := f_closed f |})
    (set_fs (<[f_path f := default [] (fs w !! f_path f) ++ f_pending f]> (fs w)) w).

(** [log_file.write(s)] *)
Definition log_write (t : tick) (s : text) : M unit :=
  emit (EvLogWrite s);;
  may_raise (fault_at OpLogWrite t);;
  lf ← gets log_file;
  match lf with
  | Some f => modify (set_log_file (Some {| f_path := f_path f;
                                            f_pending := f_pending f ++ s;
                                            f_closed := f_closed f |}))
  | None => raise (Exception "AttributeError")
  end.

(** [log_file.flush()] *)
Definition log_flush (t : tick) : M unit :=
  emit EvLogFlush;;
  may_raise (fault_at OpLogFlush t);;
  lf ← gets log_file;
  match lf with
  | Some f => modify (flush_file f)
  | None => raise (Exception "AttributeError")
  end.

(** [log_file.close()]: flush, then close. *)
Definition log_close (e : env) : M unit :=
  emit EvLogClose;;
  may_raise (Exception <$> log_close_fault e);;
  lf ← gets log_file;
  match lf with
  | Some f =>
    modify (λ w, set_log_file (Some {| f_path := f_path f; f_pending := [];
                                       f_closed := true |}) (flush_file f w))
  | None => raise (Exception "AttributeError")
  end.

(** [ser.close()] *)
Definition ser_close (e : env) : M unit :=
  emit EvSerialClose;;
  may_raise (Exception <$> ser_close_fault e);;
  s ← gets ser;
  match s with
  | Some s => modify (set_ser (Some {| s_port := s_port s; s_baud := s_baud s;
                                       is_open := false |}))
  | None => raise (Exception "UnboundLocalError")
  end.

(** ** The program *)

(** [if args.log:] -- a path was given and it is not the empty string. *)
Definition log_path (a : args) : option string :=
  match log a with
  | Some p => if decide (p = "") then None else Some p
  | None => None
  end.

(** The body of [while True]. *)
Definition iteration (t : tick) : M unit :=
  n ← ser_in_waiting t;
  if negb (n =? 0) then
    raw ← ser_readline t;
    line ← decode_and_strip raw;
    if nonempty line then
      print t line;;
      stdout_flush t;;
      lf ← gets log_file;
      match lf with
      | Some _ => log_write t (line ++ [LF]);; log_flush t
      | None => mret tt
      end
    else mret tt
  else mret tt.

(** [while True: ...] over the iterations the script describes. *)
Fixpoint while_true (ticks : list tick) : M unit :=
  match ticks with
  | [] => polling
  | t :: ticks' => iteration t;; while_true ticks'
  end.

(** The [try] body. *)
Definition main_try (a : args) (e : env) : M unit :=
  serial_Serial e (port a) (baud a);;
  print_stderr (MsgConnected (port a) (baud a));;
  print_stderr MsgRule;;
  match log_path a with
  | Some p => open_w e p;; print_stderr (MsgLogging p)
  | None => mret tt
  end;;
  while_true (script e).

(** The [except] clauses, in their order. *)
Definition main_except (a : args) (ex : exn) : M unit :=
  match ex with
  | KeyboardInterrupt =>
    print_stderr MsgStoppedRule;;
    print_stderr MsgStopped
  | FileNotFoundError _ =>
    print_stderr (MsgPortNotFound (port a));;
    print_stderr MsgCheckConnection;;
    sys_exit 1
  | Exception _ =>
    print_stderr (MsgError ex);;
    sys_exit 1
  | SystemExit _ => raise ex
  end.

(** The [finally] block. *)
Definition main_finally (e : env) : M unit :=
  lf ← gets log_file;
  match lf with
  | Some _ => log_close e
  | None => mret tt
  end;;
  s ← gets ser;
  match s with
  | Some s => if is_open s then ser_close e else mret tt
  | None => mret tt
  end.

Definition main (a : args) (e : env) : M unit :=
  modify (set_log_file None);;
  try_finally (try_except (main_try a e) (main_except a)) (main_finally e).

(** A run of the program on a filesystem. *)
Definition run (a : args) (e : env) (fs0 : gmap string text) : world * outcome unit :=
  main a e (initial fs0).

(** The status [main]'s ending asks the interpreter for: 0 when [main]
    returns, the code of a [SystemExit], 1 after the traceback of an
    exception nothing caught, 130 when that exception is a
    [KeyboardInterrupt] (the interpreter then ends on SIGINT); none
    while the loop is still polling.  (A [KeyboardInterrupt] never comes
    out of [main] uncaught: see [run_outcomes].)  The interpreter can
    still override this status while it shuts down: [exit_status]. *)
Definition exit_code (r : outcome unit) : option Z :=
  match r with
  | Returns _ => Some 0%Z
  | Raises (SystemExit c) => Some c
  | Raises KeyboardInterrupt => Some 130%Z
  | Raises _ => Some 1%Z
  | Polling => None
  end.



(** ** Vocabulary of the properties *)

(** The byte sequences [readline] hands over in the course of a script:
    those of the iterations that find data waiting. *)
Definition reads (ticks : list tick) : list bytes :=
  incoming <$> filter (λ t, in_waiting t ≠ 0) ticks.

(** The lines the loop forwards: the non-empty ones. *)
Definition lines (ticks : list tick) : list text :=
  filter (λ L, L ≠ []) (received <$> reads ticks).

(** Each line followed by one line terminator. *)
Definition unlines (ls : list text) : text := concat ((λ L, L ++ [LF]) <$> ls).

(** An event that touches the log file. *)
Definition is_log_event (ev : event) : bool :=
  match ev with
  | EvLogOpen _ | EvLogWrite _ | EvLogFlush | EvLogClose => true
  | _ => false
  end.

(** An event that writes to or flushes a sink. *)
Definition is_output_event (ev : event) : bool :=
  match ev with
  | EvStdoutWrite _ | EvStdoutFlush | EvLogWrite _ | EvLogFlush => true
  | _ => false
  end.

(** Nothing is pending in either sink, and the log file, if one is open,
    exists on disk. *)
Definition flushed (w : world) : Prop :=
  stdout_pending w = []
  ∧ ∀ f, log_file w = Some f → f_pending f = [] ∧ is_Some (fs w !! f_path f).

(** What the loop leaves alone, whatever goes wrong in it: the serial
    handle, the error stream, and of the log file everything but the
    text pending in it; without a log file, the filesystem. *)
Definition frame (w w' : world) : Prop :=
  ser w' = ser w ∧ stderr w' = stderr w
  ∧ (log_file w = None → log_file w' = None ∧ fs w' = fs w)
  ∧ (∀ f, log_file w = Some f →
       ∃ pend, log_file w' = Some {| f_path := f_path f; f_pending := pend;
                                     f_closed := f_closed f |}).

(** The [finally] block, run in the world and with the pending outcome
    that the [try] statement ended in. *)
Definition finish (e : env) (w : world) (r : outcome unit) : world * outcome unit :=
  match main_finally e w with
  | (w', Returns _) => (w', r)
  | (w', Raises ex) => (w', Raises ex)
  | (w', Polling) => (w', Polling)
  end.

(** The errors: what [except FileNotFoundError] and [except Exception]
    catch, as opposed to Ctrl-C and [sys.exit]. *)
Definition is_error (ex : exn) : bool :=
  match ex with
  | FileNotFoundError _ | Exception _ => true
  | KeyboardInterrupt | SystemExit _ => false
  end.


(** Independent cleanup: both handles are released on exit, each
    whenever its own [close] works, whatever happens to the other. *)
Definition closes_independently (a : args) (e : env) (fs0 : gmap string text) : Prop :=
  let w := fst (run a e fs0) in
  snd (run a e fs0) ≠ Polling →
  (∀ f, log_file w = Some f → log_close_fault e = None → f_closed f = true)
  ∧ (∀ s, ser w = Some s → ser_close_fault e = None → is_open s = false).

(** The filesystem is as it was, no log file object exists, and no call
    so far was a call on a log file. *)
Definition untouched (fs0 : gmap string text) (w : world) : Prop :=
  fs w = fs0 ∧ log_file w = None
  ∧ Forall (λ ev, is_log_event ev = false) (trace w).

(** Two worlds that differ at most in the filesystem, and there not in
    the file at [p]. *)
Definition agree (p : string) (w w' : world) : Prop :=
  set_fs ∅ w = set_fs ∅ w' ∧ fs w !! p = fs w' !! p.

(** ** Example runs *)

Module Demo.

(** [b"READY\r\n"], [b"OK\n"], a bare newline, and noise on the line. *)
Definition READY : bytes := [x52; x45; x41; x44; x59; x0d; x0a].
Definition OK : bytes := [x4f; x4b; x0a].
Definition BLANK : bytes := [x20; x0d; x0a].
Definition NOISE : bytes := [xff; x4f; xc3; x4b; xe2; x82; x0a].

Definition quiet (n : N) (raw : bytes) : tick :=
  {| in_waiting := n; incoming := raw; fault := None |}.

(** Ctrl-C while polling. *)
Definition ctrl_c : tick :=
  {| in_waiting := 0; incoming := []; fault := Some (OpInWaiting, KeyboardInterrupt) |}.

Definition two_lines : list tick := [quiet 7 READY; quiet 0 []; quiet 3 OK].

Definition session (ticks : list tick) : env :=
  {| serial_fault := None; log_open_fault := None; script := ticks;
     log_close_fault := None; ser_close_fault := None |}.

Definition with_log : args :=
  {| port := "/dev/ttyUSB0"; baud := 115200; log := Some "/tmp/x.log" |}.

Definition without_log : args :=
  {| port := "/dev/ttyUSB0"; baud := 115200; log := None |}.

Definition wrong_port : args :=
  {| port := "/dev/doesnotexist"; baud := 115200; log := Some "/tmp/x.log" |}.

(** A log file left behind by an earlier run. *)
Definition old_log : gmap string text := {[ "/tmp/x.log" := [79; 76; 68; 10] ]}.

(** The port is not there. *)
Definition no_port : env :=
  {| serial_fault := Some (Exception "could not open port /dev/doesnotexist");
     log_open_fault := None; script := two_lines;
     log_close_fault := None; ser_close_fault := None |}.

(** Ctrl-C after one line, and then the log file fails to close. *)
Definition bad_close : env :=
  {| serial_fault := None; log_open_fault := None;
     script := [quiet 7 READY; ctrl_c];
     log_close_fault := Some "Input/output error"; ser_close_fault := None |}.

End Demo.

(** A Unicode scalar value: a code point up to U+10FFFF that is no
    surrogate. *)
Definition is_scalar_value (c : N) : bool :=
  (c <? 0xD800) || ((0xDFFF <? c) && (c <? 0x110000)).




(** The calls of an iteration that forwards the line [L], in the order
    of the source. *)
Definition iteration_calls (L : text) : list event :=
  [EvInWaiting; EvReadline; EvStdoutWrite (L ++ [LF]); EvStdoutFlush;
   EvLogWrite (L ++ [LF]); EvLogFlush].

(** What the monitor prints to stderr once set up ... *)
Definition banner (a : args) (e : env) : list message :=
  match serial_fault e with
  | Some _ => []
  | None =>
    [MsgConnected (port a) (baud a); MsgRule]
    ++ match log_path a, log_open_fault e with
       | Some p, None => [MsgLogging p]
       | _, _ => []
       end
  end.

(** ... and what it prints when the [try] body ends. *)
Definition report (a : args) (r : outcome unit) : list message :=
  match r with
  | Raises KeyboardInterrupt => [MsgStoppedRule; MsgStopped]
  | Raises (FileNotFoundError _) => [MsgPortNotFound (port a); MsgCheckConnection]
  | Raises (Exception msg) => [MsgError (Exception msg)]
  | _ => []
  end.

(** More runs: the log file cannot be opened; the disk fills up while
    the second line is flushed to the log; the reader of stdout goes
    away before the first line is flushed to it. *)
Module Cases.


Definition no_log_dir : env :=
  {| serial_fault := None;
     log_open_fault := Some (FileNotFoundError "No such file or directory");
     script := Demo.two_lines;
     log_close_fault := None; ser_close_fault := None |}.


End Cases.

(** * Properties *)

(** ** The text layer *)

Section Decoding.

Lemma decoded_cons_total c d :
  (∃ t, d = Decoded t) → ∃ t, decoded_cons c d = Decoded t.
Proof. intros [t ->]. simpl. eauto. Qed.

Lemma on_error_lenient errors d :
  errors ≠ Strict → (∃ t, d = Decoded t) → ∃ t, on_error errors d = Decoded t.
Proof.
  intros Hne Hd. destruct errors; simpl; [done | done |].
  by apply decoded_cons_total.
Qed.

(** With a lenient handler the decoder's loop cannot end in an error,
    wherever in a sequence it stands. *)
Lemma decode_from_lenient errors skip s :
  errors ≠ Strict → ∃ t, decode_from errors skip s = Decoded t.
Proof.
  intros Hne. revert skip.
  induction s as [|b s IH]; intros skip; [by eexists|].
  destruct skip as [|k]; [|apply IH].
  cbn [decode_from].
  destruct (utf8_decode_step (b :: s)) as [|cp n|n|].
  - by eexists.
  - apply decoded_cons_total, IH.
  - apply on_error_lenient; [done | apply IH].
  - apply on_error_lenient; [done | by eexists].
Qed.

Lemma decode_ignore_total s : ∃ t, decode Ignore s = Decoded t.
Proof. by apply decode_from_lenient. Qed.

Lemma decode_replace_total s : ∃ t, decode Replace s = Decoded t.
Proof. by apply decode_from_lenient. Qed.

(** The strict handler does raise: a lone [0xFF] is no UTF-8. *)
Lemma decode_strict_raises : decode Strict [xff] = UnicodeDecodeError.
Proof. reflexivity. Qed.

(** The three handlers on malformed input: an overlong form, a
    surrogate, a code point beyond U+10FFFF, sequences cut short, and
    valid text around noise. *)
Example decode_overlong :
  decode Strict [xe0; x80; x41] = UnicodeDecodeError
  ∧ decode Ignore [xe0; x80; x41] = Decoded [65]
  ∧ decode Replace [xe0; x80; x41] = Decoded [65533; 65533; 65].
Proof. by vm_compute. Qed.

Example decode_surrogate :
  decode Ignore [xed; xa0; x80] = Decoded []
  ∧ decode Replace [xed; xa0; x80] = Decoded [65533; 65533; 65533].
Proof. by vm_compute. Qed.

Example decode_beyond_range :
  decode Ignore [xf4; x90; x80; x80] = Decoded []
  ∧ decode Replace [xf4; x90; x80; x80] = Decoded [65533; 65533; 65533; 65533].
Proof. by vm_compute. Qed.

Example decode_cut_short :
  decode Ignore [xf0; x9f; x98] = Decoded []
  ∧ decode Replace [xf0; x9f; x98] = Decoded [65533]
  ∧ decode Replace [xc0; xaf] = Decoded [65533; 65533].
Proof. by vm_compute. Qed.

Example decode_valid :
  decode Strict [xc3; xa9; xe2; x82; xac; xf0; x9f; x98; x80]
  = Decoded [233; 8364; 128512].
Proof. by vm_compute. Qed.

Example decode_mixed :
  decode Ignore [xe2; x82; x41; xf0; x9f; x98; x80; xff] = Decoded [65; 128512]
  ∧ decode Replace [xe2; x82; x41; xf0; x9f; x98; x80; xff]
    = Decoded [65533; 65; 128512; 65533].
Proof. by vm_compute. Qed.

(** On input the strict decoder accepts, ignoring errors changes nothing. *)
Lemma decode_from_strict_ignore skip s t :
  decode_from Strict skip s = Decoded t → decode_from Ignore skip s = Decoded t.
Proof.
  revert skip t. induction s as [|b s IH]; intros skip t; [done|].
  destruct skip as [|k]; [|apply IH].
  cbn [decode_from].
  destruct (utf8_decode_step (b :: s)) as [|cp n|n|]; try done.
  destruct (decode_from Strict (Nat.pred n) s) as [t'|] eqn:E; [|done].
  by rewrite (IH _ _ E).
Qed.

Lemma decode_strict_ignore s t :
  decode Strict s = Decoded t → decode Ignore s = Decoded t.
Proof. apply decode_from_strict_ignore. Qed.

(** ASCII passes through unchanged. *)
Lemma decode_ascii errors s :
  Forall (λ b, Byte.to_N b < 0x80) s →
  decode errors s = Decoded (Byte.to_N <$> s).
Proof.
  unfold decode. induction 1 as [|b s Hb _ IH]; [done|].
  cbn [decode_from utf8_decode_step].
  apply N.ltb_lt in Hb. rewrite Hb. cbn [Nat.pred]. by rewrite IH.
Qed.

(** Stepping over [k] bytes is decoding what lies behind them. *)
Lemma decode_from_skip errors k s :
  decode_from errors k s = decode_from errors 0 (drop k s).
Proof.
  revert k. induction s as [|b s IH]; intros [|k]; try done.
  cbn [decode_from drop]. apply IH.
Qed.

(** A code point is decoded from the [n] bytes of its sequence alone. *)
Lemma step_char_prefix s cp n :
  utf8_decode_step s = StepChar cp n →
  (0 < n)%nat ∧ length (take n s) = n
  ∧ ∀ s', utf8_decode_step (take n s ++ s') = StepChar cp n.
Proof.
  unfold utf8_decode_step. intros H.
  repeat (case_match; simplify_eq/=; try done).
  all: split; [lia|]; split; [done|]; intros s'; simpl.
  all: repeat (case_match; simplify_eq/=; try done).
  all: reflexivity.
Qed.

Lemma decode_strict_char s cp n s' :
  utf8_decode_step s = StepChar cp n →
  decode Strict (take n s ++ s') = decoded_cons cp (decode Strict s').
Proof.
  intros Hstep. destruct (step_char_prefix s cp n Hstep) as (Hn & Hlen & Hpre).
  specialize (Hpre s'). unfold decode.
  destruct (take n s ++ s') as [|b r] eqn:E.
  { apply (f_equal length) in E. rewrite length_app, Hlen in E. simpl in E. lia. }
  cbn [decode_from]. rewrite Hpre. f_equal.
  rewrite decode_from_skip. f_equal.
  change r with (drop 1 (b :: r)). rewrite <- E, drop_drop.
  replace (1 + Nat.pred n)%nat with n by lia.
  rewrite drop_app_length'; done.
Qed.

(** What the lenient decoder returns is what the strict one makes of the
    input with the offending bytes left out. *)
Lemma decode_ignore_drops s :
  ∃ kept, sublist kept s ∧ decode Strict kept = decode Ignore s.
Proof.
  induction s as [s IH] using (induction_ltof1 _ (@length byte)).
  unfold ltof in IH.
  destruct s as [|b rest]; [exists []; split; [constructor | done]|].
  unfold decode at 2. cbn [decode_from].
  destruct (utf8_decode_step (b :: rest)) as [|cp n|n|] eqn:Hstep.
  - exists []. split; [apply sublist_nil_l | done].
  - rewrite decode_from_skip.
    destruct (IH (drop (Nat.pred n) rest)) as (kept & Hsub & Hdec).
    { simpl. rewrite length_drop. lia. }
    exists (take n (b :: rest) ++ kept). split.
    + destruct (step_char_prefix _ _ _ Hstep) as (Hn & _ & _).
      rewrite <- (take_drop n (b :: rest)) at 2.
      apply sublist_app; [done|].
      destruct n as [|n]; [lia|]. done.
    + rewrite (decode_strict_char _ cp n kept Hstep). by rewrite Hdec.
  - rewrite decode_from_skip. simpl.
    destruct (IH (drop (Nat.pred n) rest)) as (kept & Hsub & Hdec).
    { simpl. rewrite length_drop. lia. }
    exists kept. split; [|done].
    apply sublist_cons. etrans; [done|]. apply sublist_drop.
  - exists []. split; [apply sublist_nil_l | done].
Qed.

Lemma decode_line_total raw : decode_line raw = Decoded (received raw).
Proof.
  unfold received, decode_line.
  by destruct (decode_ignore_total raw) as [t ->].
Qed.

End Decoding.

Section Stripping.

Lemma lstrip_spec s :
  ∃ ws, s = ws ++ lstrip s ∧ Forall (λ c, isspace c = true) ws.
Proof.
  induction s as [|c s (ws & Hs & Hws)]; [by exists []|].
  simpl. destruct (isspace c) eqn:Hc.
  - exists (c :: ws). split; [by rewrite Hs at 1 | by constructor].
  - by exists [].
Qed.

Lemma lstrip_head s c : head (lstrip s) = Some c → isspace c = false.
Proof.
  induction s as [|c' s IH]; [done|].
  simpl. destruct (isspace c') eqn:Hc; [done|].
  simpl. by intros [= <-].
Qed.

(** [rstrip] removes a suffix of whitespace ... *)
Lemma rstrip_spec s :
  ∃ ws, s = rstrip s ++ ws ∧ Forall (λ c, isspace c = true) ws.
Proof.
  unfold rstrip. destruct (lstrip_spec (reverse s)) as (ws & Hs & Hws).
  exists (reverse ws). split.
  - rewrite <- reverse_app, <- Hs. by rewrite reverse_involutive.
  - by apply Forall_reverse.
Qed.

(** ... and what is left does not end in whitespace. *)
Lemma rstrip_last s c : last (rstrip s) = Some c → isspace c = false.
Proof.
  unfold rstrip. rewrite last_reverse. apply lstrip_head.
Qed.

(** Nothing more could have been removed: a text that does not end in
    whitespace is left alone. *)
Lemma rstrip_fixed s :
  (∀ c, last s = Some c → isspace c = false) → rstrip s = s.
Proof.
  intros H. unfold rstrip.
  destruct (reverse s) as [|c r] eqn:E.
  - simpl. by rewrite <- (reverse_involutive s), E.
  - assert (last s = Some c) as Hl.
    { by rewrite <- (reverse_involutive s), E, last_reverse. }
    simpl. rewrite (H _ Hl). by rewrite <- E, reverse_involutive.
Qed.

Lemma rstrip_app_space s c : isspace c = true → rstrip (s ++ [c]) = rstrip s.
Proof.
  intros Hc. unfold rstrip. rewrite reverse_snoc. simpl. by rewrite Hc.
Qed.

Example rstrip_examples :
  rstrip [82; 69; 65; 68; 89; 13; 10] = [82; 69; 65; 68; 89]
  ∧ rstrip [32; 97; 32; 98; 32; 9; 11; 12; 28; 31; 133; 160; 12288] = [32; 97; 32; 98]
  ∧ rstrip [120; 8203; 32] = [120; 8203]
  ∧ rstrip [10; 10] = [].
Proof. by vm_compute. Qed.

Lemma isspace_LF : isspace LF = true.
Proof. reflexivity. Qed.

End Stripping.

(** ** The loop *)

Ltac unfold_ops :=
  unfold iteration, log_write, log_flush, log_close, ser_close, print,
    stdout_flush, ser_readline, ser_in_waiting, decode_and_strip,
    serial_Serial, open_w, print_stderr, sys_exit, fault_at, may_raise,
    emit, modify, gets, raise, polling, mbind, M_bind, mret, M_ret.

(** Splits on everything the loop body branches on. *)
Ltac iteration_cases t w :=
  let n := fresh "n" in
  let raw := fresh "raw" in
  let o := fresh "o" in
  let ex := fresh "ex" in
  let E := fresh "Hlog" in
  destruct t as [n raw [[o ex]|]]; [destruct o|];
  unfold_ops; simpl;
  destruct (n =? 0) eqn:?; simpl;
  rewrite ?decode_line_total;
  try (destruct (received raw) eqn:?; simpl);
  try (destruct (log_file w) eqn:E; simpl; rewrite ?E; simpl).

Section Loop.

Lemma nonempty_true (L : text) : nonempty L = true ↔ L ≠ [].
Proof. by destruct L. Qed.

Lemma bind_run {A B} (m : M A) (k : A → M B) w :
  (m ≫= k) w =
  match m w with
  | (w', Returns a) => k a w'
  | (w', Raises e) => (w', Raises e)
  | (w', Polling) => (w', Polling)
  end.
Proof. reflexivity. Qed.

Lemma while_true_cons t ticks w :
  while_true (t :: ticks) w =
  match iteration t w with
  | (w', Returns _) => while_true ticks w'
  | (w', Raises e) => (w', Raises e)
  | (w', Polling) => (w', Polling)
  end.
Proof. reflexivity. Qed.

(** The loop body returns or raises: it is the loop that goes on. *)
Lemma iteration_not_polling t w : snd (iteration t w) ≠ Polling.
Proof. iteration_cases t w; done. Qed.

(** The loop has no [break]: it never completes normally. *)
Lemma while_true_never_returns ticks w u :
  snd (while_true ticks w) ≠ Returns u.
Proof.
  revert w. induction ticks as [|t ticks IH]; intros w; [done|].
  rewrite while_true_cons.
  destruct (iteration t w) as [w' [[]|ex|]]; [apply IH | done | done].
Qed.

Lemma frame_refl w : frame w w.
Proof. repeat split; try done. intros [] ?; eauto. Qed.

Lemma frame_trans w1 w2 w3 : frame w1 w2 → frame w2 w3 → frame w1 w3.
Proof.
  intros (Hs & He & Hn & Hf) (Hs' & He' & Hn' & Hf').
  split; [congruence|]. split; [congruence|]. split.
  - intros Hw. destruct (Hn Hw) as [H1 H2]. destruct (Hn' H1). split; congruence.
  - intros f Hw. destruct (Hf f Hw) as [pend Hp].
    destruct (Hf' _ Hp) as [pend' Hp']. eauto.
Qed.

Lemma iteration_frame t w : frame w (fst (iteration t w)).
Proof.
  unfold frame.
  iteration_cases t w; repeat split; try done; intros ? [= <-]; eauto.
  all: destruct f; eauto.
Qed.

Lemma while_true_frame ticks w : frame w (fst (while_true ticks w)).
Proof.
  revert w. induction ticks as [|t ticks IH]; intros w; [apply frame_refl|].
  rewrite while_true_cons.
  pose proof (iteration_frame t w) as Hf.
  destruct (iteration t w) as [w1 [[]|ex|]]; cbn [fst] in *; [|done..].
  by eapply frame_trans.
Qed.

Lemma while_true_app ticks rest w :
  while_true (ticks ++ rest) w =
  match while_true ticks w with
  | (w', Polling) => while_true rest w'
  | r => r
  end.
Proof.
  revert w. induction ticks as [|t ticks IH]; intros w; [done|].
  rewrite <- app_comm_cons, !while_true_cons.
  pose proof (iteration_not_polling t w) as Hp.
  destruct (iteration t w) as [w' [[]|ex|]]; [apply IH | done | done].
Qed.

End Loop.

(** ** Iterations in which nothing raises *)

Section Quiet.

Lemma lines_cons t ticks :
  lines (t :: ticks) =
  (if in_waiting t =? 0 then []
   else if nonempty (received (incoming t)) then [received (incoming t)]
        else [])
  ++ lines ticks.
Proof.
  unfold lines, reads. rewrite filter_cons.
  destruct (N.eqb_spec (in_waiting t) 0) as [H0|H0]; case_decide; try done.
  rewrite !fmap_cons, filter_cons.
  by destruct (received (incoming t)).
Qed.

Lemma lines_app ticks1 ticks2 : lines (ticks1 ++ ticks2) = lines ticks1 ++ lines ticks2.
Proof.
  unfold lines, reads. by rewrite filter_app, !fmap_app, filter_app.
Qed.

Lemma unlines_app ls1 ls2 : unlines (ls1 ++ ls2) = unlines ls1 ++ unlines ls2.
Proof. unfold unlines. by rewrite fmap_app, concat_app. Qed.

Lemma unlines_cons L ls : unlines (L :: ls) = L ++ LF :: unlines ls.
Proof. unfold unlines. simpl. by rewrite <- app_assoc. Qed.

Lemma flushed_insert_id w f :
  flushed w → log_file w = Some f →
  <[f_path f := default [] (fs w !! f_path f) ++ []]> (fs w) = fs w.
Proof.
  intros [_ Hlog] Hf. destruct (Hlog f Hf) as [_ [c Hc]].
  by rewrite Hc, app_nil_r, insert_id.
Qed.

(** An iteration that forwards nothing. *)
Lemma idle_spec w w' :
  flushed w → stdout w' = stdout w → stdout_pending w' = stdout_pending w →
  log_file w' = log_file w → fs w' = fs w →
  flushed w'
  ∧ stdout w' = stdout w ++ unlines []
  ∧ log_file w' = log_file w
  ∧ match log_file w with
    | Some f => fs w' = <[f_path f := default [] (fs w !! f_path f)
                                       ++ unlines []]> (fs w)
    | None => fs w' = fs w
    end.
Proof.
  intros Hw Hout Hpend Hlf Hfs. split; [|split; [|split]].
  - unfold flushed. rewrite Hpend, Hlf, Hfs. apply Hw.
  - by rewrite app_nil_r.
  - done.
  - destruct (log_file w) as [f|] eqn:Hf; [|done].
    simpl. by rewrite flushed_insert_id.
Qed.

(** One iteration: the line it delivers, if any, reaches stdout and
    the log file, and nothing stays pending. *)
Lemma iteration_quiet t w :
  fault t = None → flushed w →
  let w' := fst (iteration t w) in
  snd (iteration t w) = Returns tt
  ∧ flushed w'
  ∧ stdout w' = stdout w ++ unlines (lines [t])
  ∧ log_file w' = log_file w
  ∧ match log_file w with
    | Some f => fs w' = <[f_path f := default [] (fs w !! f_path f)
                                       ++ unlines (lines [t])]> (fs w)
    | None => fs w' = fs w
    end.
Proof.
  intros Hq Hw. rewrite lines_cons.
  destruct t as [n raw flt]. simpl in Hq. subst flt.
  unfold iteration. unfold_ops. simpl.
  destruct (n =? 0) eqn:Hn; simpl.
  { split; [done|]. by apply (idle_spec w (set_trace _ w)). }
  rewrite decode_line_total.
  destruct (received raw) as [|c L] eqn:HL; simpl.
  { split; [done|]. by apply (idle_spec w (set_trace _ (set_trace _ w))). }
  change (lines []) with (@nil text). rewrite unlines_cons.
  destruct Hw as [Hout Hlog]. rewrite Hout. simpl.
  destruct (log_file w) as [lf|] eqn:Hf; simpl; rewrite ?Hf; simpl.
  - destruct (Hlog lf eq_refl) as [Hp [c0 Hc]].
    rewrite Hp, Hc. simpl.
    split; [done|]. split; [|split; [done|split]].
    + split; [done|]. intros f' [= <-]. simpl. by rewrite lookup_insert_eq.
    + by destruct lf; simpl in *; subst.
    + done.
  - split; [done|]. split; [|done].
    split; [done|]. simpl. by rewrite Hf.
Qed.

(** A script in which nothing raises: the loop forwards its lines in
    order, and is still polling at the end of it. *)
Lemma while_true_quiet ticks w :
  Forall (λ t, fault t = None) ticks → flushed w →
  let w' := fst (while_true ticks w) in
  snd (while_true ticks w) = Polling
  ∧ flushed w'
  ∧ stdout w' = stdout w ++ unlines (lines ticks)
  ∧ log_file w' = log_file w
  ∧ match log_file w with
    | Some f => fs w' = <[f_path f := default [] (fs w !! f_path f)
                                       ++ unlines (lines ticks)]> (fs w)
    | None => fs w' = fs w
    end.
Proof.
  intros Hq. revert w. induction Hq as [|t ticks Ht _ IH]; intros w Hw.
  - split; [done|]. by apply (idle_spec w w).
  - cbn zeta. rewrite while_true_cons.
    destruct (iteration_quiet t w Ht Hw) as (Hr & Hw1 & Hout & Hlf & Hfs).
    destruct (iteration t w) as [w1 r]. simpl in Hr, Hw1, Hout, Hlf, Hfs.
    subst r. destruct (IH w1 Hw1) as (Hr' & Hw' & Hout' & Hlf' & Hfs').
    change (t :: ticks) with ([t] ++ ticks).
    rewrite lines_app, unlines_app.
    split; [done|]. split; [done|].
    split; [by rewrite Hout', Hout, app_assoc|].
    split; [congruence|].
    rewrite Hlf in Hfs'. destruct (log_file w) as [f|]; [|congruence].
    rewrite Hfs', Hfs, lookup_insert_eq, insert_insert_eq. simpl.
    by rewrite app_assoc.
Qed.

End Quiet.

(** ** The stages of [main] *)

Ltac finally_cases e w :=
  unfold main_finally; unfold_ops; simpl;
  let Hlf := fresh "Hlf" in
  let Hs := fresh "Hs" in
  destruct (log_file w) as [?|] eqn:Hlf;
  destruct (ser w) as [[? ? []]|] eqn:Hs;
  destruct (log_close_fault e) as [?|] eqn:?;
  destruct (ser_close_fault e) as [?|] eqn:?;
  repeat (progress (simpl; rewrite ?Hlf, ?Hs)).

Section Stages.

(** [main], stage by stage: while the loop polls nothing else happens;
    an exception goes through the handlers; then the cleanup runs. *)
Lemma run_stages a e fs0 :
  run a e fs0 =
  match main_try a e (initial fs0) with
  | (w1, Polling) => (w1, Polling)
  | (w1, Returns u) => finish e w1 (Returns u)
  | (w1, Raises ex) =>
    let (w2, r2) := main_except a ex w1 in finish e w2 r2
  end.
Proof.
  unfold run, main, try_finally, try_except, finish.
  rewrite bind_run. simpl.
  change (set_log_file None (initial fs0)) with (initial fs0).
  destruct (main_try a e (initial fs0)) as [w1 [[]|ex|]]; try done.
  by destruct ex.
Qed.

(** The [try] body never completes: it ends in an exception or not at all. *)
Lemma main_try_never_returns a e w u : snd (main_try a e w) ≠ Returns u.
Proof.
  unfold main_try. unfold_ops. simpl.
  destruct (serial_fault e); simpl; [done|].
  destruct (log_path a); simpl.
  - destruct (log_open_fault e); simpl; [done|].
    apply while_true_never_returns.
  - apply while_true_never_returns.
Qed.

(** When the port cannot be opened the [try] body ends there. *)
Lemma main_try_no_port a e w ex :
  serial_fault e = Some ex →
  main_try a e w =
  (set_trace (trace w ++ [EvSerialOpen (port a) (baud a)]) w, Raises ex).
Proof. intros H. unfold main_try. unfold_ops. simpl. by rewrite H. Qed.

(** Once the port and, if asked for, the log file are open, the loop
    starts in a world with nothing pending and an empty log file. *)
Lemma main_try_setup a e w :
  serial_fault e = None → log_open_fault e = None →
  ∃ w1, main_try a e w = while_true (script e) w1
    ∧ stdout w1 = stdout w ∧ stdout_pending w1 = stdout_pending w
    ∧ ser w1 = Some {| s_port := port a; s_baud := baud a; is_open := true |}
    ∧ match log_path a with
      | Some p =>
        log_file w1 = Some {| f_path := p; f_pending := []; f_closed := false |}
        ∧ fs w1 = <[p := []]> (fs w)
      | None => log_file w1 = log_file w ∧ fs w1 = fs w
      end.
Proof.
  intros Hs Hl. unfold main_try. unfold_ops. simpl. rewrite Hs. simpl.
  destruct (log_path a) as [p|]; simpl; rewrite ?Hl; simpl;
    eexists; (split; [reflexivity|]); done.
Qed.

(** The handlers only print, and then return or exit. *)
Lemma main_except_frame a ex w :
  let w' := fst (main_except a ex w) in
  fs w' = fs w ∧ stdout w' = stdout w ∧ stdout_pending w' = stdout_pending w
  ∧ ser w' = ser w ∧ log_file w' = log_file w ∧ trace w' = trace w.
Proof. by destruct ex. Qed.

Lemma main_except_outcome a ex w :
  snd (main_except a ex w) =
  match ex with
  | KeyboardInterrupt => Returns tt
  | SystemExit c => Raises (SystemExit c)
  | FileNotFoundError _ | Exception _ => Raises (SystemExit 1)
  end.
Proof. by destruct ex. Qed.

(** The cleanup returns, or fails with what a [close] raised. *)
Lemma main_finally_outcome e w :
  snd (main_finally e w) = Returns tt
  ∨ ∃ msg, snd (main_finally e w) = Raises (Exception msg).
Proof. finally_cases e w; eauto. Qed.


(** The cleanup writes nothing to stdout, and with nothing pending in
    the log file it leaves the filesystem as it is. *)
Lemma main_finally_frame e w :
  let w' := fst (main_finally e w) in
  stdout w' = stdout w ∧ stdout_pending w' = stdout_pending w
  ∧ stderr w' = stderr w
  ∧ (log_file w = None → log_file w' = None ∧ fs w' = fs w)
  ∧ (flushed w → fs w' = fs w).
Proof.
  finally_cases e w; repeat split; try done.
  all: intros [_ Hw];
    match goal with H : log_file _ = Some ?f |- _ =>
      destruct (Hw f H) as [Hp [c Hc]] end.
  all: simpl; by rewrite Hp, Hc, app_nil_r, insert_id.
Qed.

End Stages.

(** ** A run that is stopped at a poll

    The port and the log file open, the iterations [ticks] go by without
    an exception, and the next poll raises [ex]: Ctrl-C, or an error. *)
Section StoppedRun.

Variables (a : args) (e : env) (ticks : list tick) (stop : tick) (ex : exn).
Hypothesis serial_opens : serial_fault e = None.
Hypothesis log_opens : log_open_fault e = None.
Hypothesis script_stops : script e = ticks ++ [stop].
Hypothesis ticks_quiet : Forall (λ t, fault t = None) ticks.
Hypothesis stop_raises : fault stop = Some (OpInWaiting, ex).

Lemma stop_iteration w :
  while_true [stop] w = (set_trace (trace w ++ [EvInWaiting]) w, Raises ex).
Proof.
  unfold while_true, iteration. unfold_ops. simpl.
  rewrite stop_raises. simpl. by destruct (decide (OpInWaiting = OpInWaiting)).
Qed.

(** Everything such a run has forwarded when it exits. *)
Lemma stopped_run_output fs0 :
  let w := fst (run a e fs0) in
  stdout w = unlines (lines ticks)
  ∧ stdout_pending w = []
  ∧ match log_path a with
    | Some p => fs w = <[p := unlines (lines ticks)]> fs0
    | None => fs w = fs0
    end.
Proof.
  cbn zeta. rewrite run_stages.
  destruct (main_try_setup a e (initial fs0) serial_opens log_opens)
    as (w1 & -> & Hout1 & Hpend1 & Hser1 & Hlog1).
  assert (flushed w1) as Hw1.
  { split; [done|]. intros f Hf.
    destruct (log_path a) as [p|]; destruct Hlog1 as [Hlf Hfs].
    - rewrite Hlf in Hf. injection Hf as <-. simpl.
      rewrite Hfs, lookup_insert_eq. eauto.
    - by rewrite Hlf in Hf. }
  rewrite script_stops, while_true_app.
  destruct (while_true_quiet ticks w1 ticks_quiet Hw1)
    as (Hr2 & Hw2 & Hout2 & Hlf2 & Hfs2).
  destruct (while_true ticks w1) as [w2 r2]. simpl in Hr2, Hw2, Hout2, Hlf2, Hfs2.
  subst r2. rewrite stop_iteration.
  set (w3 := set_trace (trace w2 ++ [EvInWaiting]) w2).
  destruct (main_except_frame a ex w3) as (Hfs4 & Hout4 & Hpend4 & _ & Hlf4 & _).
  destruct (main_except a ex w3) as [w4 r4]. simpl in Hfs4, Hout4, Hpend4, Hlf4.
  assert (flushed w4) as Hw4.
  { unfold flushed. rewrite Hpend4, Hlf4, Hfs4. apply Hw2. }
  unfold finish.
  destruct (main_finally_frame e w4) as (Hout5 & Hpend5 & _ & Hnone5 & Hfs5).
  specialize (Hfs5 Hw4).
  assert (stdout w4 = unlines (lines ticks)) as Hout.
  { rewrite Hout4. subst w3. simpl. by rewrite Hout2, Hout1. }
  assert (fs w4 = match log_path a with
                  | Some p => <[p := unlines (lines ticks)]> fs0
                  | None => fs0
                  end) as Hfs.
  { rewrite Hfs4. subst w3. simpl.
    destruct (log_path a) as [p|]; destruct Hlog1 as [Hlf Hfs].
    - rewrite Hlf in Hfs2. simpl in Hfs2.
      by rewrite Hfs2, Hfs, lookup_insert_eq, insert_insert_eq.
    - rewrite Hlf in Hfs2. simpl in Hfs2. by rewrite Hfs2, Hfs. }
  assert (stdout_pending w4 = []) as Hpend by apply Hw4.
  destruct (main_finally e w4) as [w5 [[]|ex5|]]; simpl in *;
    (split; [congruence|]; split; [congruence|]);
    rewrite Hfs5, Hfs; by destruct (log_path a).
Qed.

End StoppedRun.

(** ** Lines in, lines out *)

Section Forwarding.

Lemma filter_all_nonempty (Ls : list text) :
  Forall (λ L, L ≠ []) Ls → filter (λ L, L ≠ []) Ls = Ls.
Proof.
  induction 1 as [|L Ls HL _ IH]; [done|].
  rewrite filter_cons. case_decide; [by rewrite IH | done].
Qed.

(** C1: for any sequence of N non-empty decoded lines arriving in order
    L1..LN, the monitor loop writes exactly L1..LN to stdout in that
    order, and when a log path is configured the log file ends up
    containing exactly L1..LN in that order, each followed by exactly
    one line terminator. *)
Theorem lines_forwarded_in_order a e ticks stop ex Ls fs0 :
  serial_fault e = None → log_open_fault e = None →
  script e = ticks ++ [stop] →
  Forall (λ t, fault t = None) ticks →
  fault stop = Some (OpInWaiting, ex) →
  received <$> reads ticks = Ls →
  Forall (λ L, L ≠ []) Ls →
  let w := fst (run a e fs0) in
  stdout w = unlines Ls
  ∧ stdout_pending w = []
  ∧ ∀ p, log_path a = Some p → fs w !! p = Some (unlines Ls).
Proof.
  intros Hs Hl Hscript Hq Hstop HLs Hne.
  destruct (stopped_run_output a e ticks stop ex Hs Hl Hscript Hq Hstop fs0)
    as (Hout & Hpend & Hfs).
  assert (lines ticks = Ls) as Hlines.
  { unfold lines. rewrite HLs. by apply filter_all_nonempty. }
  rewrite Hlines in Hout, Hfs.
  split; [done|]. split; [done|].
  intros p Hp. rewrite Hp in Hfs. cbn zeta. rewrite Hfs.
  apply lookup_insert_eq.
Qed.

Lemma lines_forwarded_in_order_witness :
  let w := fst (run Demo.with_log (Demo.session (Demo.two_lines ++ [Demo.ctrl_c]))
                    Demo.old_log) in
  stdout w = unlines [[82; 69; 65; 68; 89]; [79; 75]]
  ∧ stdout_pending w = []
  ∧ ∀ p, log_path Demo.with_log = Some p →
         fs w !! p = Some (unlines [[82; 69; 65; 68; 89]; [79; 75]]).
Proof.
  apply (lines_forwarded_in_order Demo.with_log _ Demo.two_lines Demo.ctrl_c
           KeyboardInterrupt).
  - reflexivity.
  - reflexivity.
  - reflexivity.
  - repeat constructor.
  - reflexivity.
  - vm_compute. reflexivity.
  - repeat constructor; discriminate.
Defined.

(** C10: the monitor's observable output is deterministic: two runs
    given the same sequence of incoming byte lines and the same
    arguments write the same lines to stdout and, when logging is
    enabled, leave the same log file contents -- however the polls
    fall between the lines and whatever was on disk before. *)
Theorem output_deterministic a e1 e2 ticks1 ticks2 stop1 stop2 ex1 ex2 fs1 fs2 :
  serial_fault e1 = None → log_open_fault e1 = None →
  script e1 = ticks1 ++ [stop1] →
  Forall (λ t, fault t = None) ticks1 →
  fault stop1 = Some (OpInWaiting, ex1) →
  serial_fault e2 = None → log_open_fault e2 = None →
  script e2 = ticks2 ++ [stop2] →
  Forall (λ t, fault t = None) ticks2 →
  fault stop2 = Some (OpInWaiting, ex2) →
  reads ticks1 = reads ticks2 →
  let w1 := fst (run a e1 fs1) in
  let w2 := fst (run a e2 fs2) in
  stdout w1 = stdout w2
  ∧ ∀ p, log_path a = Some p → fs w1 !! p = fs w2 !! p.
Proof.
  intros Hs1 Hl1 Hsc1 Hq1 Hst1 Hs2 Hl2 Hsc2 Hq2 Hst2 Hreads.
  destruct (stopped_run_output a e1 ticks1 stop1 ex1 Hs1 Hl1 Hsc1 Hq1 Hst1 fs1)
    as (Hout1 & _ & Hfs1).
  destruct (stopped_run_output a e2 ticks2 stop2 ex2 Hs2 Hl2 Hsc2 Hq2 Hst2 fs2)
    as (Hout2 & _ & Hfs2).
  assert (lines ticks1 = lines ticks2) as Hlines
    by (unfold lines; by rewrite Hreads).
  cbn zeta. rewrite Hout1, Hout2, Hlines. split; [done|].
  intros p Hp. rewrite Hp in Hfs1, Hfs2.
  by rewrite Hfs1, Hfs2, !lookup_insert_eq, Hlines.
Qed.

Lemma output_deterministic_witness :
  let w1 := fst (run Demo.with_log
                     (Demo.session (Demo.two_lines ++ [Demo.ctrl_c])) ∅) in
  let w2 := fst (run Demo.with_log
                     (Demo.session ([Demo.quiet 0 []; Demo.quiet 1 Demo.READY;
                                     Demo.quiet 9 Demo.OK; Demo.quiet 0 []]
                                    ++ [Demo.ctrl_c])) Demo.old_log) in
  stdout w1 = stdout w2
  ∧ ∀ p, log_path Demo.with_log = Some p → fs w1 !! p = fs w2 !! p.
Proof.
  apply (output_deterministic Demo.with_log _ _ Demo.two_lines
           [Demo.quiet 0 []; Demo.quiet 1 Demo.READY; Demo.quiet 9 Demo.OK;
            Demo.quiet 0 []]
           Demo.ctrl_c Demo.ctrl_c KeyboardInterrupt KeyboardInterrupt).
  - reflexivity.
  - reflexivity.
  - reflexivity.
  - repeat constructor.
  - reflexivity.
  - reflexivity.
  - reflexivity.
  - reflexivity.
  - repeat constructor.
  - reflexivity.
  - vm_compute. reflexivity.
Defined.

End Forwarding.

(** ** One line at a time *)

Section OneLine.

(** C5: for every byte sequence fed through the decode-and-strip step,
    if the result after stripping trailing whitespace is empty, it is
    written neither to stdout nor to the log file. *)
Theorem empty_line_not_forwarded t w :
  received (incoming t) = [] →
  let w' := fst (iteration t w) in
  stdout w' = stdout w ∧ stdout_pending w' = stdout_pending w
  ∧ fs w' = fs w ∧ log_file w' = log_file w
  ∧ ∃ evs, trace w' = trace w ++ evs
           ∧ Forall (λ ev, is_output_event ev = false) evs.
Proof.
  intros Hempty. destruct t as [n raw [[o ex]|]]; simpl in Hempty;
    [destruct o|]; unfold iteration; unfold_ops; simpl;
    destruct (n =? 0); simpl; rewrite ?decode_line_total, ?Hempty; simpl.
  all: repeat split.
  all: eexists; split; [by rewrite <- ?app_assoc | by repeat constructor].
Qed.

Lemma empty_line_not_forwarded_witness :
  let w := initial ∅ in
  let w' := fst (iteration (Demo.quiet 3 Demo.BLANK) w) in
  stdout w' = stdout w ∧ stdout_pending w' = stdout_pending w
  ∧ fs w' = fs w ∧ log_file w' = log_file w
  ∧ ∃ evs, trace w' = trace w ++ evs
           ∧ Forall (λ ev, is_output_event ev = false) evs.
Proof.
  apply (empty_line_not_forwarded (Demo.quiet 3 Demo.BLANK) (initial ∅)).
  vm_compute. reflexivity.
Defined.

(** C6: for every non-empty line processed in one loop iteration, the
    stdout write and its flush happen before the log write and its
    flush, and both sinks are flushed before the next line is
    processed. *)
Theorem line_written_then_flushed t w L :
  fault t = None → in_waiting t ≠ 0 →
  received (incoming t) = L → L ≠ [] →
  let w' := fst (iteration t w) in
  trace w' = trace w
             ++ [EvInWaiting; EvReadline; EvStdoutWrite (L ++ [LF]); EvStdoutFlush]
             ++ match log_file w with
                | Some _ => [EvLogWrite (L ++ [LF]); EvLogFlush]
                | None => []
                end
  ∧ stdout_pending w' = []
  ∧ (∀ f, log_file w' = Some f → f_pending f = [])
  ∧ ∀ rest, while_true (t :: rest) w = while_true rest w'.
Proof.
  intros Hq Hn HL Hne. destruct t as [n raw flt]. simpl in Hq, Hn, HL. subst flt.
  apply N.eqb_neq in Hn.
  cbn zeta. split; [|split; [|split]].
  4: { intros rest. rewrite while_true_cons.
       unfold iteration. unfold_ops. simpl. rewrite Hn. simpl.
       rewrite decode_line_total, HL.
       destruct L as [|c L]; [done|]. simpl.
       by destruct (log_file w) as [f|] eqn:Hf; simpl; rewrite ?Hf. }
  all: unfold iteration; unfold_ops; simpl; rewrite Hn; simpl.
  all: rewrite decode_line_total, HL.
  all: destruct L as [|c L]; [done|]; simpl.
  all: destruct (log_file w) as [f|] eqn:Hf; simpl; rewrite ?Hf; simpl.
  all: rewrite <- ?app_assoc; try done.
  by intros ? [= <-].
Qed.

Lemma line_written_then_flushed_witness :
  let t := Demo.quiet 7 Demo.READY in
  let w := set_log_file (Some {| f_path := "/tmp/x.log"; f_pending := [];
                                 f_closed := false |}) (initial Demo.old_log) in
  let L := [82; 69; 65; 68; 89] in
  let w' := fst (iteration t w) in
  trace w' = trace w
             ++ [EvInWaiting; EvReadline; EvStdoutWrite (L ++ [LF]); EvStdoutFlush]
             ++ match log_file w with
                | Some _ => [EvLogWrite (L ++ [LF]); EvLogFlush]
                | None => []
                end
  ∧ stdout_pending w' = []
  ∧ (∀ f, log_file w' = Some f → f_pending f = [])
  ∧ ∀ rest, while_true (t :: rest) w = while_true rest w'.
Proof.
  apply (line_written_then_flushed (Demo.quiet 7 Demo.READY)).
  - reflexivity.
  - discriminate.
  - vm_compute. reflexivity.
  - discriminate.
Defined.

(** C7: for every incoming byte sequence the decode step is total:
    invalid byte sequences are dropped rather than raising an error,
    and trailing whitespace (including the newline) is stripped from
    the decoded text. *)
Theorem decode_step_total raw :
  ∃ t,
    decode Ignore raw = Decoded t
    ∧ (∃ kept, sublist kept raw ∧ decode Strict kept = Decoded t)
    ∧ (∀ t', decode Strict raw = Decoded t' → t' = t)
    ∧ (∀ w, decode_and_strip raw w = (w, Returns (rstrip t)))
    ∧ (∃ ws, t = rstrip t ++ ws ∧ Forall (λ c, isspace c = true) ws)
    ∧ (∀ c, last (rstrip t) = Some c → isspace c = false)
    ∧ isspace LF = true.
Proof.
  destruct (decode_ignore_total raw) as [t Ht]. exists t.
  split; [done|]. split; [|split; [|split; [|split; [|split]]]].
  - destruct (decode_ignore_drops raw) as (kept & Hsub & Hdec).
    exists kept. split; [done|]. by rewrite Hdec.
  - intros t' Hs. apply decode_strict_ignore in Hs. congruence.
  - intros w. unfold decode_and_strip, decode_line. by rewrite Ht.
  - apply rstrip_spec.
  - apply rstrip_last.
  - reflexivity.
Qed.

(** Noise on the line: the strict decoder raises, the lenient one
    keeps what is valid. *)
Example decode_noise :
  decode Strict Demo.NOISE = UnicodeDecodeError
  ∧ decode Ignore Demo.NOISE = Decoded [79; 75; 10]
  ∧ decode_line Demo.NOISE = Decoded [79; 75].
Proof. vm_compute. done. Qed.

End OneLine.

(** ** Leaving the program *)

Section Exit.






(** C4: if the requested serial port does not exist, the process exits
    with a non-zero status, an error message is written to the error
    stream, and no lines are written to stdout and no log file is
    created or written, even when [--log] was supplied. *)
Theorem missing_port_is_fatal a e ex fs0 :
  serial_fault e = Some ex → is_error ex = true →
  let w := fst (run a e fs0) in
  exit_code (snd (run a e fs0)) = Some 1%Z
  ∧ stderr w = match ex with
               | FileNotFoundError _ =>
                 [MsgPortNotFound (port a); MsgCheckConnection]
               | _ => [MsgError ex]
               end
  ∧ stdout w = [] ∧ stdout_pending w = []
  ∧ fs w = fs0 ∧ log_file w = None
  ∧ trace w = [EvSerialOpen (port a) (baud a)].
Proof.
  intros Hser Hex. cbn zeta. rewrite run_stages.
  rewrite (main_try_no_port a e _ ex Hser).
  destruct ex; try done; by repeat split.
Qed.

Lemma missing_port_is_fatal_witness :
  let w := fst (run Demo.wrong_port Demo.no_port Demo.old_log) in
  exit_code (snd (run Demo.wrong_port Demo.no_port Demo.old_log)) = Some 1%Z
  ∧ stderr w = [MsgError (Exception "could not open port /dev/doesnotexist")]
  ∧ stdout w = [] ∧ stdout_pending w = []
  ∧ fs w = Demo.old_log ∧ log_file w = None
  ∧ trace w = [EvSerialOpen (port Demo.wrong_port) (baud Demo.wrong_port)].
Proof.
  apply (missing_port_is_fatal Demo.wrong_port Demo.no_port
           (Exception "could not open port /dev/doesnotexist") Demo.old_log);
    reflexivity.
Defined.

End Exit.

(** ** Releasing the handles *)

Section Cleanup.

(** Every exit goes through the [finally] block. *)
Lemma run_exit_world a e fs0 :
  snd (run a e fs0) ≠ Polling →
  ∃ w2, fst (run a e fs0) = fst (main_finally e w2).
Proof.
  rewrite run_stages. unfold finish.
  destruct (main_try a e (initial fs0)) as [w1 [u|ex|]]; [| |done]; intros _.
  - exists w1. by destruct (main_finally e w1) as [w3 [[]|ex3|]].
  - destruct (main_except a ex w1) as [w2 r2].
    exists w2. by destruct (main_finally e w2) as [w3 [[]|ex3|]].
Qed.

(** What the [finally] block achieves. *)
Lemma main_finally_closes e w :
  let w' := fst (main_finally e w) in
  (∀ f, log_file w' = Some f → In EvLogClose (trace w'))
  ∧ (∀ f, log_file w' = Some f → log_close_fault e = None →
       f_closed f = true ∧ f_pending f = [])
  ∧ (∀ s, ser w' = Some s → log_file w' = None ∨ log_close_fault e = None →
       ser_close_fault e = None → is_open s = false).
Proof.
  finally_cases e w; split_and!; intros; simplify_eq/=; try done.
  all: try (rewrite !in_app_iff; simpl; tauto).
  all: by destruct_or!.
Qed.

(** The handles that were opened are still bound when the program
    leaves: the loop and the handlers never rebind them. *)
Lemma main_try_handles a e w :
  let w1 := fst (main_try a e w) in
  (serial_fault e = None → is_Some (ser w1))
  ∧ (∀ p, log_path a = Some p → serial_fault e = None →
       log_open_fault e = None →
       ∃ f, log_file w1 = Some f ∧ f_path f = p).
Proof.
  cbn zeta. split.
  - intros Hs. unfold main_try. unfold_ops. simpl. rewrite Hs. simpl.
    destruct (log_path a) as [p|]; simpl;
      [destruct (log_open_fault e); simpl; [by eauto|]|].
    all: match goal with |- is_Some (ser (while_true ?t ?w0).1) =>
           destruct (while_true_frame t w0) as (-> & _) end; by eauto.
  - intros p Ha Hs Hl.
    destruct (main_try_setup a e w Hs Hl) as (w1 & -> & _ & _ & _ & Hlog).
    rewrite Ha in Hlog. destruct Hlog as [Hlf _].
    destruct (while_true_frame (script e) w1) as (_ & _ & _ & Hf).
    destruct (Hf _ Hlf) as [pend ->]. eauto.
Qed.

Lemma main_finally_handles e w :
  let w' := fst (main_finally e w) in
  (is_Some (ser w) → is_Some (ser w'))
  ∧ (∀ f, log_file w = Some f → ∃ f', log_file w' = Some f' ∧ f_path f' = f_path f).
Proof.
  finally_cases e w; split; try done; try (by eauto); intros; simplify_eq/=; eauto.
Qed.

(** [main] returns, exits through [sys.exit], or dies of what a [close]
    raised -- or is still polling. *)
Lemma run_outcomes a e fs0 :
  match snd (run a e fs0) with
  | Raises KeyboardInterrupt | Raises (FileNotFoundError _) => False
  | _ => True
  end.
Proof.
  rewrite run_stages.
  pose proof (main_try_never_returns a e (initial fs0)) as Hnr.
  destruct (main_try a e (initial fs0)) as [w1 [u|ex|]]; [by destruct (Hnr u)| |done].
  pose proof (main_except_outcome a ex w1) as Hr2.
  destruct (main_except a ex w1) as [w2 r2]. simpl in Hr2. subst r2.
  unfold finish.
  destruct (main_finally_outcome e w2) as [H|[msg H]];
    destruct (main_finally e w2) as [w3 r3]; simpl in H; subst r3; by destruct ex.
Qed.

Lemma run_handles a e fs0 :
  let w := fst (run a e fs0) in
  (serial_fault e = None → is_Some (ser w))
  ∧ (∀ p, log_path a = Some p → serial_fault e = None →
       log_open_fault e = None →
       ∃ f, log_file w = Some f ∧ f_path f = p).
Proof.
  cbn zeta. rewrite run_stages.
  destruct (main_try_handles a e (initial fs0)) as [Hser Hlog].
  assert (∀ w r, (serial_fault e = None → is_Some (ser w)) →
                 (∀ p, log_path a = Some p → serial_fault e = None →
                    log_open_fault e = None →
                    ∃ f, log_file w = Some f ∧ f_path f = p) →
                 (serial_fault e = None → is_Some (ser (fst (finish e w r))))
                 ∧ (∀ p, log_path a = Some p → serial_fault e = None →
                      log_open_fault e = None →
                      ∃ f, log_file (fst (finish e w r)) = Some f ∧ f_path f = p))
    as Hfinish.
  { intros w r Hs Hl. unfold finish.
    destruct (main_finally_handles e w) as [Hs' Hl'].
    destruct (main_finally e w) as [w' [[]|ex|]]; simpl in *.
    all: split; [by auto|]; intros p Ha H1 H2.
    all: destruct (Hl p Ha H1 H2) as (f & Hf & <-); by apply Hl'. }
  destruct (main_try a e (initial fs0)) as [w1 [u|ex|]]; simpl in *.
  - by apply Hfinish.
  - destruct (main_except_frame a ex w1) as (_ & _ & _ & Hs2 & Hl2 & _).
    destruct (main_except a ex w1) as [w2 r2]. simpl in *.
    apply Hfinish; by rewrite ?Hs2, ?Hl2.
  - done.
Qed.

(** C2, as amended: on every exit path of the monitor the [finally]
    block runs; it closes the log file, if one was opened, and then
    the serial connection, if it was opened.  The log file is closed
    whatever happens to the serial connection; the serial connection
    is closed provided closing the log file did not fail. *)
Theorem handles_closed_on_exit a e fs0 :
  let w := fst (run a e fs0) in
  snd (run a e fs0) ≠ Polling →
  (serial_fault e = None → is_Some (ser w))
  ∧ (∀ p, log_path a = Some p → serial_fault e = None →
       log_open_fault e = None → ∃ f, log_file w = Some f ∧ f_path f = p)
  ∧ (∀ f, log_file w = Some f → In EvLogClose (trace w))
  ∧ (∀ f, log_file w = Some f → log_close_fault e = None →
       f_closed f = true ∧ f_pending f = [])
  ∧ (∀ s, ser w = Some s → log_file w = None ∨ log_close_fault e = None →
       ser_close_fault e = None → is_open s = false).
Proof.
  intros w Hexit. subst w.
  destruct (run_handles a e fs0) as [Hser Hlog].
  split; [done|]. split; [done|].
  destruct (run_exit_world a e fs0 Hexit) as [w2 ->].
  apply main_finally_closes.
Qed.

Lemma handles_closed_on_exit_witness :
  let w := fst (run Demo.with_log
                    (Demo.session (Demo.two_lines ++ [Demo.ctrl_c])) ∅) in
  (serial_fault (Demo.session (Demo.two_lines ++ [Demo.ctrl_c])) = None →
   is_Some (ser w))
  ∧ (∀ p, log_path Demo.with_log = Some p →
       serial_fault (Demo.session (Demo.two_lines ++ [Demo.ctrl_c])) = None →
       log_open_fault (Demo.session (Demo.two_lines ++ [Demo.ctrl_c])) = None →
       ∃ f, log_file w = Some f ∧ f_path f = p)
  ∧ (∀ f, log_file w = Some f → In EvLogClose (trace w))
  ∧ (∀ f, log_file w = Some f →
       log_close_fault (Demo.session (Demo.two_lines ++ [Demo.ctrl_c])) = None →
       f_closed f = true ∧ f_pending f = [])
  ∧ (∀ s, ser w = Some s →
       log_file w = None
       ∨ log_close_fault (Demo.session (Demo.two_lines ++ [Demo.ctrl_c])) = None →
       ser_close_fault (Demo.session (Demo.two_lines ++ [Demo.ctrl_c])) = None →
       is_open s = false).
Proof.
  apply (handles_closed_on_exit Demo.with_log
           (Demo.session (Demo.two_lines ++ [Demo.ctrl_c])) ∅).
  vm_compute. discriminate.
Defined.

(** C2, as stated, fails: when closing the log file raises, the
    [finally] block is left at once and the serial connection, whose
    own [close] would have worked, stays open. *)
Lemma closes_independently_counterexample :
  ¬ closes_independently Demo.with_log Demo.bad_close ∅.
Proof.
  unfold closes_independently. intros H.
  destruct H as [_ Hser]; [vm_compute; discriminate|].
  specialize (Hser {| s_port := "/dev/ttyUSB0"; s_baud := 115200; is_open := true |}).
  by specialize (Hser eq_refl eq_refl).
Qed.

(** The other way round the two closes are independent: a serial
    connection that fails to close does not keep the log file open. *)
Lemma log_closed_despite_serial e w f :
  log_file (fst (main_finally e w)) = Some f →
  log_close_fault e = None → f_closed f = true.
Proof.
  intros Hf Hl. by destruct (main_finally_closes e w) as (_ & H & _);
    destruct (H f Hf Hl).
Qed.

End Cleanup.

(** ** Without a log file *)

Section NoLog.

Lemma iteration_untouched fs0 t w :
  untouched fs0 w → untouched fs0 (fst (iteration t w)).
Proof.
  intros (Hfs & Hlf & Htr). unfold untouched.
  iteration_cases t w; try congruence.
  all: split_and!; try done.
  all: rewrite ?Forall_app; split_and!; try done; by repeat constructor.
Qed.

Lemma while_true_untouched fs0 ticks w :
  untouched fs0 w → untouched fs0 (fst (while_true ticks w)).
Proof.
  revert w. induction ticks as [|t ticks IH]; intros w Hw; [done|].
  rewrite while_true_cons.
  pose proof (iteration_untouched fs0 t w Hw) as Hw1.
  destruct (iteration t w) as [w1 [[]|ex|]]; simpl in Hw1; [by apply IH|done..].
Qed.

Lemma main_try_untouched fs0 a e w :
  log_path a = None → untouched fs0 w → untouched fs0 (fst (main_try a e w)).
Proof.
  intros Ha (Hfs & Hlf & Htr). unfold main_try. unfold_ops. simpl. rewrite Ha.
  destruct (serial_fault e); simpl.
  - split_and!; try done. simpl.
    rewrite Forall_app. split; [done|by repeat constructor].
  - apply while_true_untouched. split_and!; try done. simpl.
    rewrite Forall_app. split; [done|by repeat constructor].
Qed.

Lemma main_except_untouched fs0 a ex w :
  untouched fs0 w → untouched fs0 (fst (main_except a ex w)).
Proof. by destruct ex. Qed.

Lemma main_finally_untouched fs0 e w :
  untouched fs0 w → untouched fs0 (fst (main_finally e w)).
Proof.
  intros (Hfs & Hlf & Htr). unfold untouched.
  finally_cases e w; try congruence.
  all: split_and!; try done.
  all: rewrite ?Forall_app; split_and!; try done; by repeat constructor.
Qed.

Lemma finish_untouched fs0 e w r :
  untouched fs0 w → untouched fs0 (fst (finish e w r)).
Proof.
  intros Hw. unfold finish.
  pose proof (main_finally_untouched fs0 e w Hw) as Hw'.
  by destruct (main_finally e w) as [w' [[]|ex|]].
Qed.

(** C9: when no [--log] argument is given, the monitor never opens,
    writes, or closes any log file: for every execution without a log
    path the filesystem is unchanged and every operation touches only
    stdout, the error stream and the serial handle. *)
Theorem no_log_no_file_touched a e fs0 :
  log_path a = None →
  let w := fst (run a e fs0) in
  fs w = fs0 ∧ log_file w = None
  ∧ Forall (λ ev, is_log_event ev = false) (trace w).
Proof.
  intros Ha. cbn zeta. rewrite run_stages.
  assert (untouched fs0 (initial fs0)) as Hw0 by (by split_and!).
  pose proof (main_try_untouched fs0 a e _ Ha Hw0) as Hw1.
  destruct (main_try a e (initial fs0)) as [w1 [u|ex|]]; simpl in Hw1.
  - by apply finish_untouched.
  - pose proof (main_except_untouched fs0 a ex w1 Hw1) as Hw2.
    destruct (main_except a ex w1) as [w2 r2]. by apply finish_untouched.
  - done.
Qed.

Lemma no_log_no_file_touched_witness :
  let w := fst (run Demo.without_log
                    (Demo.session (Demo.two_lines ++ [Demo.ctrl_c])) Demo.old_log) in
  fs w = Demo.old_log ∧ log_file w = None
  ∧ Forall (λ ev, is_log_event ev = false) (trace w).
Proof.
  apply (no_log_no_file_touched Demo.without_log
           (Demo.session (Demo.two_lines ++ [Demo.ctrl_c])) Demo.old_log).
  reflexivity.
Defined.

End NoLog.

(** ** Truncation *)

Section Truncation.

Variable p : string.

Lemma agree_fields w w' :
  agree p w w' →
  stdout w = stdout w' ∧ stdout_pending w = stdout_pending w'
  ∧ stderr w = stderr w' ∧ ser w = ser w' ∧ log_file w = log_file w'
  ∧ trace w = trace w'.
Proof. intros [H _]. destruct w, w'. by simplify_eq/=. Qed.

(** The loop body does not read the filesystem: from worlds that agree
    it ends the same way, in worlds that agree. *)
Lemma iteration_agree t w w' :
  agree p w w' →
  agree p (fst (iteration t w)) (fst (iteration t w'))
  ∧ snd (iteration t w) = snd (iteration t w').
Proof.
  intros [H Hp]. destruct w as [m ? ? ? ? ? ?], w' as [m' out pend err s lf tr].
  simplify_eq/=. unfold agree.
  destruct t as [n raw [[o ex]|]]; [destruct o|]; unfold_ops; simpl.
  all: destruct (n =? 0); simpl; rewrite ?decode_line_total.
  all: try (destruct (received raw); simpl).
  all: try (destruct lf; simpl).
  all: split_and!; try done.
  all: rewrite !lookup_insert; case_decide; subst; by rewrite ?Hp.
Qed.

Lemma while_true_agree ticks w w' :
  agree p w w' →
  agree p (fst (while_true ticks w)) (fst (while_true ticks w'))
  ∧ snd (while_true ticks w) = snd (while_true ticks w').
Proof.
  revert w w'. induction ticks as [|t ticks IH]; intros w w' Hw; [done|].
  rewrite !while_true_cons.
  destruct (iteration_agree t w w' Hw) as [Hw1 Hr].
  destruct (iteration t w) as [w1 r1], (iteration t w') as [w1' r1'].
  simpl in Hw1, Hr. subst r1'. destruct r1 as [[]|ex|]; [by apply IH|done..].
Qed.

Lemma main_except_agree a ex w w' :
  agree p w w' →
  agree p (fst (main_except a ex w)) (fst (main_except a ex w'))
  ∧ snd (main_except a ex w) = snd (main_except a ex w').
Proof.
  intros [H Hp]. destruct w, w'. simplify_eq/=. by destruct ex.
Qed.

Lemma main_finally_agree e w w' :
  agree p w w' →
  agree p (fst (main_finally e w)) (fst (main_finally e w'))
  ∧ snd (main_finally e w) = snd (main_finally e w').
Proof.
  intros [H Hp]. destruct w as [m ? ? ? ? ? ?], w' as [m' out pend err s lf tr].
  simplify_eq/=. unfold agree, main_finally. unfold_ops. simpl.
  destruct lf as [f|]; simpl; [destruct (log_close_fault e); simpl|].
  all: try (destruct s as [[? ? []]|]; simpl).
  all: try (destruct (ser_close_fault e); simpl).
  all: split_and!; try done.
  all: rewrite !lookup_insert; case_decide; subst; by rewrite ?Hp.
Qed.

Lemma finish_agree e w w' r :
  agree p w w' →
  agree p (fst (finish e w r)) (fst (finish e w' r))
  ∧ snd (finish e w r) = snd (finish e w' r).
Proof.
  intros Hw. unfold finish.
  destruct (main_finally_agree e w w' Hw) as [Hw1 Hr].
  destruct (main_finally e w) as [w1 r1], (main_finally e w') as [w1' r1'].
  simpl in Hw1, Hr. subst r1'. by destruct r1 as [[]|ex|].
Qed.

(** Opening the log file is what makes two runs agree. *)
Lemma main_try_agree a e fs0 fs0' :
  log_path a = Some p → serial_fault e = None → log_open_fault e = None →
  agree p (fst (main_try a e (initial fs0))) (fst (main_try a e (initial fs0')))
  ∧ snd (main_try a e (initial fs0)) = snd (main_try a e (initial fs0')).
Proof.
  intros Ha Hs Hl. unfold main_try. unfold_ops. simpl.
  rewrite Ha, Hs. simpl. rewrite Hl. simpl.
  apply while_true_agree. split; [done|]. simpl.
  by rewrite !lookup_insert_eq.
Qed.

(** C8: when a log path is configured, the log file is opened
    truncated at the start of every run, so re-running with the same
    [--log] path discards prior contents rather than appending to
    them: the loop starts on an empty file, and what the file holds in
    the end does not depend on what was on disk before. *)
Theorem log_truncated_at_start a e fs0 fs0' :
  log_path a = Some p → serial_fault e = None → log_open_fault e = None →
  (∃ w1, main_try a e (initial fs0) = while_true (script e) w1
         ∧ fs w1 !! p = Some [])
  ∧ fs (fst (run a e fs0)) !! p = fs (fst (run a e fs0')) !! p
  ∧ snd (run a e fs0) = snd (run a e fs0').
Proof.
  intros Ha Hs Hl. split.
  { destruct (main_try_setup a e (initial fs0) Hs Hl) as (w1 & Heq & _ & _ & _ & Hlog).
    exists w1. split; [done|]. rewrite Ha in Hlog. destruct Hlog as [_ ->].
    apply lookup_insert_eq. }
  assert (agree p (fst (run a e fs0)) (fst (run a e fs0'))
          ∧ snd (run a e fs0) = snd (run a e fs0')) as [[_ H] Hr]; [|done].
  rewrite !run_stages.
  destruct (main_try_agree a e fs0 fs0' Ha Hs Hl) as [Hw1 Hr1].
  destruct (main_try a e (initial fs0)) as [w1 r1],
           (main_try a e (initial fs0')) as [w1' r1'].
  simpl in Hw1, Hr1. subst r1'. destruct r1 as [u|ex|]; [|..|done].
  - by apply finish_agree.
  - destruct (main_except_agree a ex w1 w1' Hw1) as [Hw2 Hr2].
    destruct (main_except a ex w1) as [w2 r2], (main_except a ex w1') as [w2' r2'].
    simpl in Hw2, Hr2. subst r2'. by apply finish_agree.
Qed.

End Truncation.

Lemma log_truncated_at_start_witness :
  let e := Demo.session (Demo.two_lines ++ [Demo.ctrl_c]) in
  (∃ w1, main_try Demo.with_log e (initial Demo.old_log) = while_true (script e) w1
         ∧ fs w1 !! "/tmp/x.log" = Some [])
  ∧ fs (fst (run Demo.with_log e Demo.old_log)) !! "/tmp/x.log"
    = fs (fst (run Demo.with_log e ∅)) !! "/tmp/x.log"
  ∧ snd (run Demo.with_log e Demo.old_log) = snd (run Demo.with_log e ∅).
Proof.
  apply (log_truncated_at_start "/tmp/x.log" Demo.with_log
           (Demo.session (Demo.two_lines ++ [Demo.ctrl_c])) Demo.old_log ∅);
    reflexivity.
Defined.

(** * More of the program

    ** The decoder, round by round *)

Section Rounds.

Ltac byte_facts :=
  unfold is_continuation_byte in *;
  repeat match goal with
  | H : negb _ = true |- _ => apply negb_true_iff in H
  | H : negb _ = false |- _ => apply negb_false_iff in H
  | H : (_ || _) = false |- _ => apply orb_false_iff in H; destruct H
  | H : (_ && _) = true |- _ => apply andb_true_iff in H; destruct H
  | H : (_ <? _) = true |- _ => apply N.ltb_lt in H
  | H : (_ <? _) = false |- _ => apply N.ltb_ge in H
  | H : (_ <=? _) = true |- _ => apply N.leb_le in H
  | H : (_ <=? _) = false |- _ => apply N.leb_gt in H
  | H : (_ =? _) = true |- _ => apply N.eqb_eq in H
  | H : (_ =? _) = false |- _ => apply N.eqb_neq in H
  end.

Lemma step_char_range s cp n :
  utf8_decode_step s = StepChar cp n →
  is_scalar_value cp = true
  ∧ match n with
    | 1%nat => cp < 0x80 ∧ ∃ b rest, s = b :: rest ∧ cp = Byte.to_N b
    | 2%nat => 0x80 ≤ cp < 0x800
    | 3%nat => 0x800 ≤ cp < 0x10000
    | 4%nat => 0x10000 ≤ cp < 0x110000
    | _ => False
    end.
Proof.
  unfold utf8_decode_step. intros H.
  repeat (case_match; simplify_eq/=; try done).
  all: unfold is_scalar_value.
  all: rewrite orb_true_iff, andb_true_iff, !N.ltb_lt.
  all: try (split; [|split; [|by eauto]]).
  all: repeat match goal with b : byte |- _ =>
         pose proof (Byte.to_N_bounded b); generalize dependent (Byte.to_N b);
         clear b; intros end.
  all: byte_facts.
  all: rewrite ?N.shiftl_mul_pow2 in *.
  all: change (2 ^ 6) with 64 in *; change (2 ^ 12) with 4096 in *;
       change (2 ^ 18) with 262144 in *.
  all: lia.
Qed.

(** A round's verdict stands when more input follows, unless the round
    ran out of input. *)
Lemma step_app s s' :
  match utf8_decode_step s with
  | StepChar cp n => (0 < n ≤ length s)%nat ∧ utf8_decode_step (s ++ s') = StepChar cp n
  | StepInvalid n => (0 < n ≤ length s)%nat ∧ utf8_decode_step (s ++ s') = StepInvalid n
  | StepTruncated => s ≠ []
  | StepEnd => s = []
  end.
Proof.
  unfold utf8_decode_step.
  repeat (case_match; simplify_eq/=; try done).
  all: split; [lia|].
  all: repeat (case_match; simplify_eq/=; try done).
  all: reflexivity.
Qed.

(** An ASCII byte behind a sequence that was cut short ends it: the
    error range is the whole cut-off sequence. *)
Lemma step_truncated_ascii s b s' :
  utf8_decode_step s = StepTruncated → Byte.to_N b < 0x80 →
  utf8_decode_step (s ++ b :: s') = StepInvalid (length s).
Proof.
  unfold utf8_decode_step. intros H Hb.
  repeat (case_match; simplify_eq/=; try done).
  all: byte_facts; try lia.
Qed.

(** One round of the decoder's loop. *)
Lemma decode_round errors s :
  decode errors s =
  match utf8_decode_step s with
  | StepEnd => Decoded []
  | StepChar cp n => decoded_cons cp (decode errors (drop n s))
  | StepInvalid n => on_error errors (decode errors (drop n s))
  | StepTruncated => on_error errors (Decoded [])
  end.
Proof.
  pose proof (step_app s []) as Hs.
  destruct s as [|b rest]; [done|].
  unfold decode at 1. cbn [decode_from].
  destruct (utf8_decode_step (b :: rest)) as [|cp n|n|]; try done.
  all: destruct Hs as [[Hn _] _]; destruct n as [|n]; [lia|].
  all: by rewrite decode_from_skip.
Qed.

Lemma decode_truncated s :
  utf8_decode_step s = StepTruncated → decode Ignore s = Decoded [].
Proof. intros H. by rewrite decode_round, H. Qed.

(** Whatever the handler, decoded text holds Unicode scalar values only:
    no surrogate, nothing beyond U+10FFFF. *)
Lemma decoded_scalar_values errors s t :
  decode errors s = Decoded t → Forall (λ c, is_scalar_value c = true) t.
Proof.
  revert t. induction s as [s IH] using (induction_ltof1 _ (@length byte)).
  unfold ltof in IH. intros t. rewrite decode_round.
  pose proof (step_app s []) as Hs. pose proof (step_char_range s) as Hr.
  destruct (utf8_decode_step s) as [|cp n|n|].
  - by intros [= <-].
  - destruct Hs as [Hn _]. destruct (Hr cp n eq_refl) as [Hcp _].
    destruct (decode errors (drop n s)) as [t'|] eqn:E; [|done].
    intros [= <-]. constructor; [done|].
    apply (IH (drop n s)); [rewrite length_drop; lia | done].
  - destruct Hs as [Hn _].
    assert (∀ t', decode errors (drop n s) = Decoded t' →
                  Forall (λ c, is_scalar_value c = true) t') as IH'.
    { apply IH. rewrite length_drop. lia. }
    destruct errors; simpl; [done|by auto|].
    destruct (decode Replace (drop n s)) as [t'|]; [|done].
    intros [= <-]. constructor; [done|by apply IH'].
  - destruct errors; simpl; [done|by intros [= <-]|].
    intros [= <-]. by repeat constructor.
Qed.

(** An ASCII byte is a synchronisation point of the lenient decoder:
    what comes before it and what comes after it decode independently. *)
Lemma decode_ignore_ascii_app s1 b s2 :
  Byte.to_N b < 0x80 →
  decoded_text (decode Ignore (s1 ++ b :: s2))
  = decoded_text (decode Ignore s1) ++ Byte.to_N b :: decoded_text (decode Ignore s2).
Proof.
  intros Hb. induction s1 as [s1 IH] using (induction_ltof1 _ (@length byte)).
  unfold ltof in IH.
  rewrite (decode_round Ignore (s1 ++ b :: s2)), (decode_round Ignore s1).
  pose proof (step_app s1 (b :: s2)) as Hs.
  pose proof (step_truncated_ascii s1 b s2) as Ht.
  destruct (utf8_decode_step s1) as [|cp n|n|].
  - subst s1. simpl. unfold utf8_decode_step.
    apply N.ltb_lt in Hb. rewrite Hb. simpl. rewrite drop_0.
    by destruct (decode_ignore_total s2) as [t2 ->].
  - destruct Hs as [Hn ->]. rewrite drop_app_le by lia.
    specialize (IH (drop n s1)). rewrite length_drop in IH.
    destruct (decode_ignore_total (drop n s1 ++ b :: s2)) as [t Et].
    destruct (decode_ignore_total (drop n s1)) as [t1 Et1].
    rewrite Et, Et1 in *. simpl in *. rewrite IH by lia. done.
  - destruct Hs as [Hn ->]. rewrite drop_app_le by lia. simpl.
    apply IH. rewrite length_drop. lia.
  - rewrite (Ht eq_refl Hb). simpl. rewrite drop_app_length.
    rewrite (decode_round Ignore (b :: s2)). unfold utf8_decode_step.
    apply N.ltb_lt in Hb. rewrite Hb. simpl. rewrite drop_0.
    by destruct (decode_ignore_total s2) as [t2 ->].
Qed.

(** Code points below U+0080 come from the bytes that spell them. *)
Lemma decode_ascii_origin errors s t c :
  decode errors s = Decoded t → c ∈ t → c < 0x80 →
  ∃ b, b ∈ s ∧ Byte.to_N b = c.
Proof.
  revert t. induction s as [s IH] using (induction_ltof1 _ (@length byte)).
  unfold ltof in IH. intros t. rewrite decode_round.
  pose proof (step_app s []) as Hs. pose proof (step_char_range s) as Hr.
  assert (∀ n, (0 < n)%nat → ∀ t', decode errors (drop n s) = Decoded t' →
               c ∈ t' → c < 0x80 → ∃ b, b ∈ s ∧ Byte.to_N b = c) as IH'.
  { intros n Hn t' Ht' Hc Hlt.
    destruct s as [|b0 s0].
    { rewrite drop_nil in Ht'. injection Ht' as <-. by apply elem_of_nil in Hc. }
    destruct (IH (drop n (b0 :: s0))) with (t := t') as (b & Hb & Hbc); try done.
    { rewrite length_drop. simpl. lia. }
    exists b. split; [|done]. by eapply subseteq_drop. }
  destruct (utf8_decode_step s) as [|cp n|n|].
  - intros [= <-] Hc. by apply elem_of_nil in Hc.
  - destruct Hs as [Hn _]. destruct (Hr cp n eq_refl) as [_ Hcp].
    destruct (decode errors (drop n s)) as [t'|] eqn:E; [|done].
    intros [= <-] Hc Hlt. apply elem_of_cons in Hc as [->|Hc].
    + destruct n as [|[|[|[|[|n]]]]]; try done; try lia.
      destruct Hcp as (_ & b & rest & -> & ->). exists b. split; [left|done].
    + by apply (IH' n (proj1 Hn) t').
  - destruct Hs as [Hn _].
    destruct errors; simpl; [done|by apply IH', Hn|].
    destruct (decode Replace (drop n s)) as [t'|] eqn:E; [|done].
    intros [= <-] Hc Hlt. apply elem_of_cons in Hc as [->|Hc]; [done|].
    by apply (IH' n (proj1 Hn) t').
  - destruct errors; simpl; [done| |].
    + intros [= <-] Hc. by apply elem_of_nil in Hc.
    + intros [= <-] Hc Hlt.
      apply elem_of_cons in Hc as [->|Hc]; [done | by apply elem_of_nil in Hc].
Qed.

Lemma rstrip_subseteq (s : text) : rstrip s ⊆ s.
Proof.
  destruct (rstrip_spec s) as (ws & Hs & _). rewrite Hs at 2.
  by apply list_subseteq_app_l.
Qed.

(** X11: the line terminator is never forwarded: a chunk gives the same
    line with and without its final line feed, and a chunk that holds no
    other line feed gives a line without any. *)
Theorem line_feed_not_forwarded s :
  received (s ++ [x0a]) = received s
  ∧ (x0a ∉ s → LF ∉ received s).
Proof.
  split.
  - unfold received, decode_line.
    pose proof (decode_ignore_ascii_app s x0a []) as H.
    destruct (decode_ignore_total (s ++ [x0a])) as [t Et].
    destruct (decode_ignore_total s) as [t1 Et1].
    rewrite Et, Et1 in *. simpl in *. rewrite H by done.
    by apply rstrip_app_space.
  - intros Hs Hlf. unfold received, decode_line in Hlf.
    destruct (decode_ignore_total s) as [t Et]. rewrite Et in Hlf. simpl in Hlf.
    apply rstrip_subseteq in Hlf.
    destruct (decode_ascii_origin Ignore s t LF Et Hlf) as (b & Hb & Hbc); [done|].
    assert (b = x0a) as ->; [|done].
    apply (inj Some). rewrite <- (Byte.of_to_N b), Hbc. done.
Qed.

(** X12: a chunk of ASCII bytes is forwarded as it is, byte for code
    point, less its trailing whitespace. *)
Theorem ascii_line_unchanged raw :
  Forall (λ b, Byte.to_N b < 0x80) raw →
  received raw = rstrip (Byte.to_N <$> raw).
Proof.
  intros H. unfold received, decode_line. by rewrite (decode_ascii Ignore raw H).
Qed.

Lemma lstrip_nil_iff (s : text) :
  lstrip s = [] ↔ Forall (λ c, isspace c = true) s.
Proof.
  induction s as [|c s IH]; [done|]. simpl.
  destruct (isspace c) eqn:Hc.
  - rewrite IH. split; [by constructor | by inversion 1].
  - split; [done|]. inversion 1; congruence.
Qed.

(** X13: a chunk is dropped (gives the empty line) exactly when what it
    decodes to is whitespace only. *)
Theorem dropped_iff_blank raw :
  received raw = []
  ↔ Forall (λ c, isspace c = true) (decoded_text (decode Ignore raw)).
Proof.
  unfold received, decode_line.
  destruct (decode_ignore_total raw) as [t ->]. simpl. unfold rstrip.
  rewrite <- (Forall_reverse _ t), <- lstrip_nil_iff.
  split; [|by intros ->].
  intros H. apply (f_equal reverse) in H. by rewrite reverse_involutive in H.
Qed.

(** X9: every code point of a line the monitor forwards is a Unicode
    scalar value, whatever bytes came in. *)
Theorem forwarded_line_well_formed raw :
  Forall (λ c, is_scalar_value c = true) (received raw).
Proof.
  unfold received, decode_line.
  destruct (decode_ignore_total raw) as [t Et]. rewrite Et. simpl.
  pose proof (decoded_scalar_values Ignore raw t Et) as Ht.
  destruct (rstrip_spec t) as (ws & Hws & _). rewrite Hws in Ht.
  by apply Forall_app in Ht as [Ht _].
Qed.

(** X10: an ASCII byte resynchronises the lenient decoder: the bytes
    before it and the bytes after it are decoded independently, and the
    byte itself always comes through. *)
Theorem ascii_byte_resynchronises s1 b s2 :
  Byte.to_N b < 0x80 →
  decoded_text (decode Ignore (s1 ++ b :: s2))
  = decoded_text (decode Ignore s1) ++ Byte.to_N b :: decoded_text (decode Ignore s2).
Proof. apply decode_ignore_ascii_app. Qed.

Lemma ascii_byte_resynchronises_witness :
  decoded_text (decode Ignore ([xe2; x82] ++ x0a :: [xf0; x4f; x4b]))
  = decoded_text (decode Ignore [xe2; x82]) ++ Byte.to_N x0a
    :: decoded_text (decode Ignore [xf0; x4f; x4b]).
Proof. apply (ascii_byte_resynchronises [xe2; x82] x0a [xf0; x4f; x4b]). reflexivity. Defined.

Lemma line_feed_not_forwarded_witness :
  LF ∉ received [x4f; x4b; x0d].
Proof.
  apply (proj2 (line_feed_not_forwarded [x4f; x4b; x0d])).
  vm_compute. intros H. by repeat (apply elem_of_cons in H as [H|H]; [done|]);
    apply elem_of_nil in H.
Defined.

Lemma ascii_line_unchanged_witness :
  received Demo.READY = rstrip (Byte.to_N <$> Demo.READY).
Proof.
  apply (ascii_line_unchanged Demo.READY). repeat constructor.
Defined.

End Rounds.

(** ** Every run, whatever raises *)

Section EveryRun.

Lemma lines_one t :
  lines [t] = if in_waiting t =? 0 then []
              else if nonempty (received (incoming t)) then [received (incoming t)]
                   else [].
Proof. rewrite lines_cons. change (lines []) with (@nil text). by rewrite app_nil_r. Qed.





Lemma length_lines_one t : (length (lines [t]) ≤ 1)%nat.
Proof. rewrite lines_one. repeat case_match; simpl; lia. Qed.










(** X4: everything that reaches stderr in a run: the connection banner
    (and the logging notice) once the handles are open, then one report
    of how the [try] body ended -- the stop notice after Ctrl-C, the
    port-not-found notice after a [FileNotFoundError], the description
    of any other error -- and nothing else; the loop and the cleanup
    print nothing. *)
Theorem stderr_transcript a e fs0 :
  stderr (run a e fs0).1
  = banner a e ++ report a (main_try a e (initial fs0)).2.
Proof.
  rewrite run_stages.
  assert (stderr (main_try a e (initial fs0)).1 = banner a e) as H1.
  { unfold main_try, banner. unfold_ops. simpl.
    destruct (serial_fault e); simpl; [done|].
    destruct (log_path a) as [p|]; simpl.
    - destruct (log_open_fault e); simpl; [done|].
      match goal with |- stderr (while_true ?t ?w0).1 = _ =>
        by destruct (while_true_frame t w0) as (_ & -> & _) end.
    - match goal with |- stderr (while_true ?t ?w0).1 = _ =>
        by destruct (while_true_frame t w0) as (_ & -> & _) end. }
  assert (∀ w r, stderr (finish e w r).1 = stderr w) as Hfin.
  { intros w r. unfold finish.
    destruct (main_finally_frame e w) as (_ & _ & H & _).
    by destruct (main_finally e w) as [w' [[]|?|]]. }
  destruct (main_try a e (initial fs0)) as [w1 [u|ex|]]; simpl in *.
  - by rewrite Hfin, H1, app_nil_r.
  - assert (stderr (main_except a ex w1).1 = stderr w1 ++ report a (Raises ex)) as H2.
    { destruct ex; simpl; by rewrite <- ?app_assoc, ?app_nil_r. }
    destruct (main_except a ex w1) as [w2 r2]. simpl in *.
    by rewrite Hfin, H2, H1.
  - by rewrite H1, app_nil_r.
Qed.

Lemma iteration_trace t w :
  ∃ g, trace (iteration t w).1 = trace w ++ g
       ∧ g `prefix_of` iteration_calls (received (incoming t)).
Proof.
  unfold iteration_calls.
  iteration_cases t w; rewrite <- ?app_assoc.
  all: eexists; (split; [reflexivity|]); by eexists.
Qed.

Lemma while_true_trace ticks w :
  ∃ groups, trace (while_true ticks w).1 = trace w ++ concat groups
            ∧ Forall (λ g, ∃ L, g `prefix_of` iteration_calls L) groups.
Proof.
  revert w. induction ticks as [|t ticks IH]; intros w.
  { exists []. simpl. by rewrite app_nil_r. }
  rewrite while_true_cons.
  destruct (iteration_trace t w) as (g & Hg & Hpre).
  destruct (iteration t w) as [w1 [[]|ex|]]; simpl in *.
  - destruct (IH w1) as (groups & Hgs & Hall).
    exists (g :: groups). simpl. rewrite Hgs, Hg, app_assoc.
    split; [done|]. constructor; by eauto.
  - exists [g]. simpl. rewrite app_nil_r. split; [done|]. repeat constructor; by eauto.
  - exists [g]. simpl. rewrite app_nil_r. split; [done|]. repeat constructor; by eauto.
Qed.

Lemma main_finally_trace e w :
  ∃ closes, trace (main_finally e w).1 = trace w ++ closes
            ∧ closes `sublist_of` [EvLogClose; EvSerialClose].
Proof.
  finally_cases e w; rewrite <- ?app_assoc.
  all: eexists; (split; [first [reflexivity | symmetry; apply app_nil_r]|]).
  all: repeat first [apply sublist_nil_l | apply sublist_skip | apply sublist_cons].
Qed.

Lemma finish_trace e w r :
  ∃ closes, trace (finish e w r).1 = trace w ++ closes
            ∧ closes `sublist_of` [EvLogClose; EvSerialClose].
Proof.
  unfold finish. destruct (main_finally_trace e w) as (closes & H & Hsub).
  exists closes. by destruct (main_finally e w) as [w' [[]|?|]].
Qed.

(** X5: the calls of every run follow one protocol: the serial port is
    opened once, first, with the port and baud rate given; the log file
    is opened at most once, next, at the path given; then come the
    iterations, each a prefix of poll, readline, stdout write, stdout
    flush, log write, log flush, with the same text written to the log
    as to stdout; last the closes, log file before serial port, after
    which nothing more is called. *)
Theorem call_protocol a e fs0 :
  ∃ opens groups closes,
    trace (run a e fs0).1
    = EvSerialOpen (port a) (baud a) :: opens ++ concat groups ++ closes
    ∧ (opens = [] ∨ ∃ p, log_path a = Some p ∧ opens = [EvLogOpen p])
    ∧ Forall (λ g, ∃ L, g `prefix_of` iteration_calls L) groups
    ∧ closes `sublist_of` [EvLogClose; EvSerialClose].
Proof.
  rewrite run_stages.
  assert (∃ opens groups,
            trace (main_try a e (initial fs0)).1
            = EvSerialOpen (port a) (baud a) :: opens ++ concat groups
            ∧ (opens = [] ∨ ∃ p, log_path a = Some p ∧ opens = [EvLogOpen p])
            ∧ Forall (λ g, ∃ L, g `prefix_of` iteration_calls L) groups)
    as (opens & groups & H1 & Hopens & Hgroups).
  { unfold main_try. unfold_ops. simpl.
    destruct (serial_fault e); simpl; [by exists [], []; eauto|].
    destruct (log_path a) as [p|] eqn:Ha; simpl.
    - destruct (log_open_fault e); simpl.
      { exists [EvLogOpen p], []. split_and!; [done | by eauto | done]. }
      match goal with |- context [while_true ?t ?w0] =>
        destruct (while_true_trace t w0) as (groups & -> & Hall) end.
      exists [EvLogOpen p], groups. split_and!; [done | by eauto | done].
    - match goal with |- context [while_true ?t ?w0] =>
        destruct (while_true_trace t w0) as (groups & -> & Hall) end.
      exists [], groups. by eauto. }
  assert (∀ w r, trace w = trace (main_try a e (initial fs0)).1 →
                 ∃ closes, trace (finish e w r).1
                           = EvSerialOpen (port a) (baud a)
                             :: opens ++ concat groups ++ closes
                           ∧ closes `sublist_of` [EvLogClose; EvSerialClose]) as Hfin.
  { intros w r Hw. destruct (finish_trace e w r) as (closes & -> & Hsub).
    exists closes. rewrite Hw, H1. simpl. by rewrite <- app_assoc. }
  destruct (main_try a e (initial fs0)) as [w1 [u|ex|]]; simpl in *.
  - destruct (Hfin w1 (Returns u) eq_refl) as (closes & ? & ?).
    exists opens, groups, closes. by eauto.
  - destruct (main_except_frame a ex w1) as (_ & _ & _ & _ & _ & H2).
    destruct (main_except a ex w1) as [w2 r2]. simpl in *.
    destruct (Hfin w2 r2 H2) as (closes & ? & ?).
    exists opens, groups, closes. by eauto.
  - exists opens, groups, []. rewrite app_nil_r. split_and!; try done.
    apply sublist_nil_l.
Qed.



(** X7: failing to open the log file is fatal: exit status 1, nothing
    forwarded, no file created, the serial port closed again; and a
    [FileNotFoundError] from the log path is reported as the serial port
    not being found. *)
Theorem log_open_failure_is_fatal a e fs0 p ex :
  log_path a = Some p → serial_fault e = None →
  log_open_fault e = Some ex → is_error ex = true →
  let w := (run a e fs0).1 in
  exit_code (run a e fs0).2 = Some 1%Z
  ∧ stderr w = [MsgConnected (port a) (baud a); MsgRule]
               ++ match ex with
                  | FileNotFoundError _ =>
                    [MsgPortNotFound (port a); MsgCheckConnection]
                  | _ => [MsgError ex]
                  end
  ∧ fs w = fs0 ∧ stdout w = [] ∧ stdout_pending w = [] ∧ log_file w = None
  ∧ trace w = [EvSerialOpen (port a) (baud a); EvLogOpen p; EvSerialClose]
  ∧ (ser_close_fault e = None →
     ser w = Some {| s_port := port a; s_baud := baud a; is_open := false |}).
Proof.
  intros Ha Hs Hl Hex. cbn zeta.
  unfold run, main, try_finally, try_except, main_try, main_finally.
  unfold_ops. simpl. rewrite Ha, Hs. simpl. rewrite Hl. simpl.
  destruct ex; try done; simpl.
  all: destruct (ser_close_fault e); simpl; by split_and!.
Qed.






Lemma log_open_failure_is_fatal_witness :
  let w := (run Demo.with_log Cases.no_log_dir ∅).1 in
  exit_code (run Demo.with_log Cases.no_log_dir ∅).2 = Some 1%Z
  ∧ stderr w = [MsgConnected (port Demo.with_log) (baud Demo.with_log); MsgRule]
               ++ [MsgPortNotFound (port Demo.with_log); MsgCheckConnection]
  ∧ fs w = ∅ ∧ stdout w = [] ∧ stdout_pending w = [] ∧ log_file w = None
  ∧ trace w = [EvSerialOpen (port Demo.with_log) (baud Demo.with_log);
               EvLogOpen "/tmp/x.log"; EvSerialClose]
  ∧ (ser_close_fault Cases.no_log_dir = None →
     ser w = Some {| s_port := port Demo.with_log; s_baud := baud Demo.with_log;
                     is_open := false |}).
Proof.
  apply (log_open_failure_is_fatal Demo.with_log Cases.no_log_dir ∅ "/tmp/x.log"
           (FileNotFoundError "No such file or directory")); reflexivity.
Defined.


End EveryRun.
